(** * grpcstub: the interception-and-response-synthesis engine

    A shallow embedding of [grpcstub.go]: the request/response model, the
    matcher with its predicate list and its decorator-built handler, the four
    call-shape handlers and the small part of the server life cycle that the
    accessors [Addr], [Conn] and [Close] depend on.

    Conventions of the embedding.
    - Go strings are byte strings: [string] with [ascii] bytes.
    - [map[string][]string] (metadata.MD) and [map[string]interface{}]
      (Message) are [gmap]s with string keys.
    - A nil func, a nil [*Response], a nil map and a nil listener are
      [None]: the [Headers] and [Trailers] of a [Response] are maps that may
      be nil, which [range] reads as empty and [Append] cannot write.
    - The gRPC runtime and Go's Unicode tables are outside the repository.
      What the runtime answers to the calls the handlers make (does
      [SendHeader] return an error? in which order does [range] visit a
      map?) is an explicit parameter, the [Runtime] record; what the
      handlers asked of it is kept as a trace of events.
    - Predicates and handlers supplied by the user are functions of the
      request.  The locks are not modelled: a handler runs from one receive
      to the next without another call in between, and calls overlap only
      where one of them waits for its next message. *)

From Stdlib Require Import Ascii String.
From stdpp Require Import base option list strings gmap.

Local Open Scope string_scope.
Local Open Scope list_scope.

(** ** Byte strings: the functions of Go's [strings] package that are used *)

Module strings.

(** What follows [prefix] in [s], when [s] starts with it
    ([strings.HasPrefix], [strings.CutPrefix]). *)
Fixpoint stripPrefix (prefix s : string) : option string :=
  match prefix, s with
  | EmptyString, _ => Some s
  | String p prefix', String c s' =>
      if Ascii.eqb p c then stripPrefix prefix' s' else None
  | String _ _, EmptyString => None
  end.

(** [strings.TrimPrefix(s, prefix)]: [s] without the leading [prefix], or [s]
    itself when it does not start with it. *)
Definition TrimPrefix (s prefix : string) : string :=
  match stripPrefix prefix s with
  | Some rest => rest
  | None => s
  end.

(** [strings.Contains(s, substr)]: [substr] starts at some position of [s]. *)
Fixpoint Contains (s substr : string) : bool :=
  match stripPrefix substr s with
  | Some _ => true
  | None =>
      match s with
      | EmptyString => false
      | String _ s' => Contains s' substr
      end
  end.

(** [strings.Split(s, sep)] for a one-byte separator: the pieces between the
    occurrences of [sep]; one piece more than there are separators. *)
Fixpoint Split (s : string) (sep : ascii) : list string :=
  match s with
  | EmptyString => [EmptyString]
  | String c s' =>
      if Ascii.eqb c sep then EmptyString :: Split s' sep
      else match Split s' sep with
           | [] => [String c EmptyString]
           | piece :: pieces => String c piece :: pieces
           end
  end.

(** [strings.Join(elems, sep)]. *)
Fixpoint Join (elems : list string) (sep : string) : string :=
  match elems with
  | [] => EmptyString
  | [e] => e
  | e :: rest => e +:+ sep +:+ Join rest sep
  end.

(** [strings.Replace(s, old, new, 1)]: the first occurrence of [old]
    replaced by [new]. *)
Fixpoint Replace1 (s old new : string) : string :=
  match stripPrefix old s with
  | Some rest => new +:+ rest
  | None =>
      match s with
      | EmptyString => EmptyString
      | String c s' => String c (Replace1 s' old new)
      end
  end.

(** [strings.ToLower].  A string of ASCII bytes is lower-cased byte by
    byte, the letters A to Z moved to a to z.  For a string with a byte from
    0x80 on, Go maps [unicode.ToLower] over its runes
    ([strings.Map(unicode.ToLower, s)]); the Unicode tables are not part of
    the repository, and what they give is the parameter [MapToLower]. *)
Definition lowerByte (c : ascii) : ascii :=
  let n := nat_of_ascii c in
  if (65 <=? n)%nat && (n <=? 90)%nat then ascii_of_nat (n + 32) else c.

Fixpoint lowerBytes (s : string) : string :=
  match s with
  | EmptyString => EmptyString
  | String c s' => String (lowerByte c) (lowerBytes s')
  end.

Fixpoint isASCII (s : string) : bool :=
  match s with
  | EmptyString => true
  | String c s' => (nat_of_ascii c <? 128)%nat && isASCII s'
  end.

Record Unicode := { MapToLower : string → string }.

Definition ToLower (u : Unicode) (s : string) : string :=
  if isASCII s then lowerBytes s else MapToLower u s.

End strings.

(** [splitted[:len(splitted)-1]] and [splitted[len(splitted)-1]]. *)
Definition allButLast (l : list string) : list string :=
  take (length l - 1) l.

Definition lastElem (l : list string) : string :=
  default EmptyString (l !! (length l - 1)).

(** ** Metadata *)

(** [metadata.MD], a [map[string][]string]. *)
Abbreviation MD := (gmap string (list string)).

Module metadata.

(** [md.Append(k, vals...)] on a map that is not nil: nothing without
    values; otherwise the key is lower-cased and the values are appended to
    those already stored under it. *)
Definition Append (u : strings.Unicode) (md : MD) (k : string)
    (vals : list string) : MD :=
  match vals with
  | [] => md
  | _ :: _ =>
      let k' := strings.ToLower u k in
      <[k' := default [] (md !! k') ++ vals]> md
  end.
Arguments Append : simpl never.

(** [metadata.Pairs(k, v)]: a one-entry MD with the key lower-cased. *)
Definition Pairs (u : strings.Unicode) (k v : string) : MD :=
  {[ strings.ToLower u k := [v] ]}.

End metadata.

(** ** Generic documents *)

(** The values [encoding/json] produces when it decodes into
    [map[string]interface{}]. *)
#[warnings="-register-all"]
Inductive JSON : Type :=
| JNull
| JBool (b : bool)
| JNumber (n : Z)
| JString (s : string)
| JArray (items : list JSON)
| JObject (fields : gmap string JSON).

(** [type Message map[string]interface{}] *)
Abbreviation Message := (gmap string JSON).

(** ** Status and errors *)

Module codes.
(** [codes.Code] is a [uint32]; the three codes the repository names. *)
Definition Code := N.
Definition OK : Code := 0%N.
Definition Unknown : Code := 2%N.
Definition NotFound : Code := 5%N.
End codes.

(** [*status.Status]: a code and a message. *)
Record Status := { st_code : codes.Code; st_message : string }.

Inductive error :=
| EOF                          (* io.EOF *)
| StatusError (st : Status)    (* what st.Err() and status.Error return *)
| OtherError (msg : string).   (* an error of the transport or of the codec *)

(** [st.Err()]: nil for the code OK. *)
Definition Status_Err (st : Status) : option error :=
  if decide (st_code st = codes.OK) then None else Some (StatusError st).

(** [status.Error(codes.NotFound, codes.NotFound.String())] *)
Definition notFound : error :=
  StatusError {| st_code := codes.NotFound; st_message := "NotFound" |}.

(** ** Request and Response *)

Record Request := {
  req_Service : string;
  req_Method : string;
  req_Headers : MD;
  req_Message : Message;
}.

(** [Headers] and [Trailers] are [None] for the nil map, as in the
    [&Response{}] a handler of the user may return. *)
Record Response := {
  res_Headers : option MD;
  res_Messages : list Message;
  res_Trailers : option MD;
  res_Status : option Status;
}.

(** [NewResponse] makes the two maps. *)
Definition NewResponse : Response :=
  {| res_Headers := Some ∅; res_Messages := []; res_Trailers := Some ∅;
     res_Status := None |}.

(** What the code reads of a [protoreflect.MethodDescriptor]. *)
Record MethodDescriptor := {
  FullName : string;
  IsStreamingClient : bool;
  IsStreamingServer : bool;
  Output : string;     (* the name of the output message type *)
}.

Definition splitMethodFullName (mn : string) : string * string :=
  let splitted := strings.Split mn "."%char in
  let service := strings.Join (allButLast splitted) "." in
  let method := lastElem splitted in
  (service, method).

Definition newRequest (md : MethodDescriptor) (message : Message) : Request :=
  let '(service, method) := splitMethodFullName (FullName md) in
  {| req_Service := service; req_Method := method; req_Headers := ∅;
     req_Message := message |}.

(** [h, ok := metadata.FromIncomingContext(ctx); if ok { r.Headers = h }] *)
Definition withIncoming (ctx : option MD) (r : Request) : Request :=
  match ctx with
  | Some h =>
      {| req_Service := req_Service r; req_Method := req_Method r;
         req_Headers := h; req_Message := req_Message r |}
  | None => r
  end.

(** ** Matchers *)

Definition matchFunc := Request → bool.

(** [None]: the handler returned the nil [*Response], or panicked. *)
Definition handlerFunc := Request → MethodDescriptor → option Response.

(** [handler] is [None] for the nil func a new matcher starts with. *)
Record matcher := {
  matchFuncs : list matchFunc;
  handler : option handlerFunc;
  m_requests : list Request;
}.

Definition serviceMatchFunc (service : string) : matchFunc :=
  λ r, bool_decide (req_Service r = strings.TrimPrefix service "/").

Definition methodMatchFunc (method : string) : matchFunc :=
  λ r,
    if negb (strings.Contains method "/") then
      bool_decide (req_Method r = method)
    else
      let splitted := strings.Split (strings.TrimPrefix method "/") "/"%char in
      let s := strings.Join (allButLast splitted) "/" in
      let m := lastElem splitted in
      bool_decide (req_Service r = s) && bool_decide (req_Method r = m).

(** [m.Match(fn)], [m.Service(service)], [m.Method(method)] *)
Definition matcher_Match (fn : matchFunc) (m : matcher) : matcher :=
  {| matchFuncs := matchFuncs m ++ [fn]; handler := handler m;
     m_requests := m_requests m |}.

Definition matcher_Service (service : string) (m : matcher) : matcher :=
  matcher_Match (serviceMatchFunc service) m.

Definition matcher_Method (method : string) (m : matcher) : matcher :=
  matcher_Match (methodMatchFunc method) m.

Definition setHandler (h : handlerFunc) (m : matcher) : matcher :=
  {| matchFuncs := matchFuncs m; handler := Some h;
     m_requests := m_requests m |}.

(** The opening lines shared by the decorators:
    [if prev == nil { res = NewResponse() } else { res = prev(r, md) }]. *)
Definition prevResponse (prev : option handlerFunc)
    (r : Request) (md : MethodDescriptor) : option Response :=
  match prev with
  | None => Some NewResponse
  | Some h => h r md
  end.

(** [res.Headers.Append(key, value)], [res.Trailers.Append(key, value)]:
    the assignment to an entry of a nil map panics ([None]). *)
Definition appendHeader (u : strings.Unicode) (key value : string)
    (res : Response) : option Response :=
  match res_Headers res with
  | None => None
  | Some headers =>
      Some {| res_Headers := Some (metadata.Append u headers key [value]);
              res_Messages := res_Messages res;
              res_Trailers := res_Trailers res;
              res_Status := res_Status res |}
  end.

Definition appendTrailer (u : strings.Unicode) (key value : string)
    (res : Response) : option Response :=
  match res_Trailers res with
  | None => None
  | Some trailers =>
      Some {| res_Headers := res_Headers res;
              res_Messages := res_Messages res;
              res_Trailers := Some (metadata.Append u trailers key [value]);
              res_Status := res_Status res |}
  end.

Definition appendMessage (message : Message) (res : Response) : Response :=
  {| res_Headers := res_Headers res;
     res_Messages := res_Messages res ++ [message];
     res_Trailers := res_Trailers res; res_Status := res_Status res |}.

Definition setStatus (st : option Status) (res : Response) : Response :=
  {| res_Headers := res_Headers res; res_Messages := res_Messages res;
     res_Trailers := res_Trailers res; res_Status := st |}.

(** A decorator wraps the handler installed so far: the new handler runs the
    previous one (a nil [*Response] from it is dereferenced, which panics:
    [None]) and then applies its own mutation, which may panic too. *)
Definition decorateWith (mutation : Response → option Response) (m : matcher)
    : matcher :=
  let prev := handler m in
  setHandler (λ r md, prevResponse prev r md ≫= mutation) m.

(** The decorators whose mutation cannot panic: appending to a nil slice
    and storing a pointer are fine. *)
Definition decorate (mutation : Response → Response) (m : matcher) : matcher :=
  let prev := handler m in
  setHandler (λ r md, mutation <$> prevResponse prev r md) m.

Definition matcher_Header (u : strings.Unicode) (key value : string)
    : matcher → matcher :=
  decorateWith (appendHeader u key value).

Definition matcher_Trailer (u : strings.Unicode) (key value : string)
    : matcher → matcher :=
  decorateWith (appendTrailer u key value).

Definition matcher_Response (message : Message) : matcher → matcher :=
  decorate (appendMessage message).

(** [s] may be nil: [m.Status(nil)] stores nil. *)
Definition matcher_Status (st : option Status) : matcher → matcher :=
  decorate (setStatus st).

(** [m.Handler(fn)]: the chain built so far is dropped. *)
Definition matcher_Handler (fn : Request → option Response) : matcher → matcher :=
  setHandler (λ r _, fn r).

(** The predicate loop of the four handlers:
    [match := true; for _, fn := range m.matchFuncs { if !fn(r) { match = false } }].
    Every predicate is called; there is no early exit. *)
Definition evaluate (m : matcher) (r : Request) : bool :=
  fold_left (λ (match_ : bool) (fn : matchFunc),
               if negb (fn r) then false else match_)
            (matchFuncs m) true.

(** [m.requests = append(m.requests, r)] *)
Definition logRequest (r : Request) (m : matcher) : matcher :=
  {| matchFuncs := matchFuncs m; handler := handler m;
     m_requests := m_requests m ++ [r] |}.

(** [m.handler(r, md)] followed by the first use of the result: calling the
    nil func panics, a handler may panic itself, and reading a field of a
    nil [*Response] panics. *)
Definition invoke (m : matcher) (r : Request) (md : MethodDescriptor)
    : option Response :=
  match handler m with
  | None => None
  | Some h => h r md
  end.

(** ** The server *)

Inductive serverStatus :=
| status_unknown
| status_start
| status_starting
| status_closing
| status_closed.

(** [crypto/tls.Config], the two fields [Conn] writes. *)
Record tlsConfig := {
  InsecureSkipVerify : bool;
  RootCAs : option string;
}.

(** What reaches the [*testing.T] of the server. *)
Inductive report :=
| Error_ (msg : string)     (* s.t.Error(msg) *)
| ErrorOf (e : error)       (* s.t.Error(err) *)
| Fatal (e : error).        (* s.t.Fatal(err) *)

(** The fields of [Server] the modelled functions read or write.  [listener]
    holds the address of the open listener, [cc] the target of the client
    connection, [t_errors] what was reported through [s.t.Error], and
    [stopped] whether [GracefulStop] or [Stop] ran on [s.server]. *)
Record Server := {
  matchers : list matcher;
  listener : option string;
  stopped : bool;
  tlsc : option tlsConfig;
  cacert : option string;
  cc : option string;
  requests : list Request;
  status : serverStatus;
  t_errors : list report;
}.

Definition setMatchers (ms : list matcher) (s : Server) : Server :=
  {| matchers := ms; listener := listener s; stopped := stopped s;
     tlsc := tlsc s; cacert := cacert s; cc := cc s; requests := requests s;
     status := status s; t_errors := t_errors s |}.

(** [s.requests = append(s.requests, r)] *)
Definition record (r : Request) (s : Server) : Server :=
  {| matchers := matchers s; listener := listener s; stopped := stopped s;
     tlsc := tlsc s; cacert := cacert s; cc := cc s;
     requests := requests s ++ [r];
     status := status s; t_errors := t_errors s |}.

(** [m := &matcher{matchFuncs: []matchFunc{fn}}]: one predicate, the nil
    handler, an empty log. *)
Definition newMatcher (fn : matchFunc) : matcher :=
  {| matchFuncs := [fn]; handler := None; m_requests := [] |}.

(** [s.matchers = append(s.matchers, m)] *)
Definition register (fn : matchFunc) (s : Server) : Server :=
  setMatchers (matchers s ++ [newMatcher fn]) s.

Definition Server_Match (fn : matchFunc) : Server → Server := register fn.

Definition Server_Service (service : string) : Server → Server :=
  register (serviceMatchFunc service).

Definition Server_Method (method : string) : Server → Server :=
  register (methodMatchFunc method).

(** The [*matcher] a registration returns points into [s.matchers]; a chained
    call on it changes the matcher at that position. *)
Definition chain (i : nat) (f : matcher → matcher) (s : Server) : Server :=
  setMatchers (alter f i (matchers s)) s.

(** ** The runtime *)

(** [dynamicpb.Message]: a message of a named type and its populated fields. *)
Record dynMessage := { descriptor : string; content : Message }.

(** [dynamicpb.NewMessage(md.Output())] *)
Definition NewMessage (desc : string) : dynMessage :=
  {| descriptor := desc; content := ∅ |}.

(** What one receive gives the handler: the error of [dec] or [RecvMsg]
    ([io.EOF] at the end of the input), or a message whose conversion to a
    document failed, or the document. *)
Inductive recv :=
| RecvErr (e : error)
| RecvBad (e : error)
| RecvDoc (doc : Message).

(** What a handler asks of the runtime, in the order it asks. *)
Inductive event :=
| Received (x : recv)       (* dec(in) or stream.RecvMsg(in), with its result *)
| SetHeader (md : MD)       (* grpc.SetHeader(ctx, md) *)
| SetTrailer (md : MD)      (* grpc.SetTrailer(ctx, md), stream.SetTrailer(md) *)
| SendHeader (md : MD)      (* stream.SendHeader(md) *)
| SendMsg (mes : dynMessage).  (* stream.SendMsg(mes) *)

(** The answers of the world outside the repository.
    - [unicode]: Go's Unicode tables;
    - [mapOrder]: the order in which [range] visits the entries of a map
      (Go leaves it unspecified);
    - [refuses]: the error, if any, with which the runtime answers a call,
      given what it accepted before;
    - [unmarshal]: [json.Marshal] of a document followed by
      [protojson.Unmarshal] into a message of the named type: the populated
      fields, or the error of either step. *)
Record Runtime := {
  unicode : strings.Unicode;
  mapOrder : MD → list (string * list string);
  refuses : list event → event → option error;
  unmarshal : string → Message → error + Message;
}.

(** [for k, v := range md]: no iteration over the nil map, otherwise the
    entries in the order of the runtime. *)
Definition rangeMD (rt : Runtime) (md : option MD)
    : list (string * list string) :=
  match md with
  | None => []
  | Some entries => mapOrder rt entries
  end.

(** The state of one call: what was received and what the runtime accepted
    so far, and the [headerSent] variable of the bidirectional handler. *)
Record call := { trace : list event; headerSent : bool }.

Definition newCall : call := {| trace := []; headerSent := false |}.

(** One more [RecvMsg] (or the [dec] of a unary call) has answered. *)
Definition receive (x : recv) (c : call) : call :=
  {| trace := trace c ++ [Received x]; headerSent := headerSent c |}.

(** A handler either returns, or panics (it called a nil handler or read a
    nil [*Response]), or is blocked in [RecvMsg] because the client has sent
    nothing more yet. *)
Inductive outcome (A : Type) :=
| Returned (a : A)
| Panicked
| Blocked.
Arguments Returned {A} a.
Arguments Panicked {A}.
Arguments Blocked {A}.

(** Straight-line code that talks to the runtime and may return early with
    an error. *)
Definition io (A : Type) : Type := call → call * (error + A).

Definition io_ret {A} (a : A) : io A := λ c, (c, inr a).

Definition io_fail {A} (e : error) : io A := λ c, (c, inl e).

Definition io_bind {A B} (m : io A) (k : A → io B) : io B :=
  λ c, match m c with
       | (c', inl e) => (c', inl e)
       | (c', inr a) => k a c'
       end.

Notation "m1 ;; m2" := (io_bind m1 (λ _, m2))
  (at level 100, m2 at level 200, right associativity).
Notation "x ←io m1 ;; m2" := (io_bind m1 (λ x, m2))
  (at level 100, m1 at next level, m2 at level 200, right associativity).

(** A call whose error result the code checks. *)
Definition perform (rt : Runtime) (ev : event) : io unit :=
  λ c, match refuses rt (trace c) ev with
       | Some e => (c, inl e)
       | None => ({| trace := trace c ++ [ev]; headerSent := headerSent c |},
                  inr ())
       end.

(** [stream.SetTrailer] returns nothing. *)
Definition performAlways (ev : event) : io unit :=
  λ c, ({| trace := trace c ++ [ev]; headerSent := headerSent c |}, inr ()).

(** [headerSent = true] *)
Definition latch : io unit :=
  λ c, ({| trace := trace c; headerSent := true |}, inr ()).

(** [for _, vv := range v { body(metadata.Pairs(k, vv)) }] *)
Fixpoint forValues (rt : Runtime) (k : string) (v : list string)
    (body : MD → io unit) : io unit :=
  match v with
  | [] => io_ret ()
  | vv :: v' =>
      body (metadata.Pairs (unicode rt) k vv) ;; forValues rt k v' body
  end.

(** [for k, v := range md { for _, vv := range v { ... } }] over the entries
    in the order [range] visits them. *)
Fixpoint forPairs (rt : Runtime) (entries : list (string * list string))
    (body : MD → io unit) : io unit :=
  match entries with
  | [] => io_ret ()
  | (k, v) :: entries' => forValues rt k v body ;; forPairs rt entries' body
  end.

(** [if res.Status != nil && res.Status.Err() != nil { return ... }] *)
Definition checkStatus (st : option Status) : io unit :=
  match st ≫= Status_Err with
  | Some e => io_fail e
  | None => io_ret ()
  end.

(** [mes := dynamicpb.NewMessage(md.Output())], [json.Marshal(doc)] and
    [protojson.Unmarshal(b, mes)]. *)
Definition encode (rt : Runtime) (md : MethodDescriptor) (doc : Message)
    : io dynMessage :=
  match unmarshal rt (Output md) doc with
  | inl e => io_fail e
  | inr fields => io_ret {| descriptor := Output md; content := fields |}
  end.

(** The reply of the two single-response shapes: [Messages[0]] encoded, or
    the empty output message when nothing is queued. *)
Definition firstMessage (rt : Runtime) (md : MethodDescriptor)
    (res : Response) : io dynMessage :=
  match res_Messages res with
  | [] => io_ret (NewMessage (Output md))
  | doc :: _ => encode rt md doc
  end.

(** [for _, resm := range res.Messages { ...; stream.SendMsg(mes) }] *)
Fixpoint sendMessages (rt : Runtime) (md : MethodDescriptor)
    (docs : list Message) : io unit :=
  match docs with
  | [] => io_ret ()
  | resm :: docs' =>
      mes ←io encode rt md resm ;;
      perform rt (SendMsg mes) ;;
      sendMessages rt md docs'
  end.

(** ** The four handlers *)

(** [r := newRequest(md, m)] with the incoming metadata as headers. *)
Definition buildRequest (md : MethodDescriptor) (ctx : option MD)
    (doc : Message) : Request :=
  withIncoming ctx (newRequest md doc).

(** *** Unary *)

Definition unaryReply (rt : Runtime) (md : MethodDescriptor) (res : Response)
    : io dynMessage :=
  forPairs rt (rangeMD rt (res_Headers res)) (λ p, perform rt (SetHeader p)) ;;
  forPairs rt (rangeMD rt (res_Trailers res)) (λ p, perform rt (SetTrailer p)) ;;
  checkStatus (res_Status res) ;;
  firstMessage rt md res.

(** [for _, m := range s.matchers { ... if match { ...; return } }] and the
    not-found return after the loop.  The result is the matcher list with the
    log of the matcher that fired extended. *)
Fixpoint unaryMatch (rt : Runtime) (md : MethodDescriptor) (r : Request)
    (ms : list matcher) (c : call)
    : list matcher * call * outcome (error + dynMessage) :=
  match ms with
  | [] => ([], c, Returned (inl notFound))
  | m :: ms' =>
      if evaluate m r then
        match invoke m r md with
        | None => (logRequest r m :: ms', c, Panicked)
        | Some res =>
            let '(c', o) := unaryReply rt md res c in
            (logRequest r m :: ms', c', Returned o)
        end
      else
        let '(ms'', c', o) := unaryMatch rt md r ms' c in
        (m :: ms'', c', o)
  end.

Definition createUnaryHandler (rt : Runtime) (md : MethodDescriptor)
    (s : Server) (ctx : option MD) (dec : recv)
    : Server * call * outcome (error + dynMessage) :=
  let c := receive dec newCall in
  match dec with
  | RecvErr e | RecvBad e => (s, c, Returned (inl e))
  | RecvDoc doc =>
      let r := buildRequest md ctx doc in
      let s1 := record r s in
      let '(ms, c', o) := unaryMatch rt md r (matchers s1) c in
      (setMatchers ms s1, c', o)
  end.

(** *** Server streaming *)

Definition serverReply (rt : Runtime) (md : MethodDescriptor) (res : Response)
    : io unit :=
  forPairs rt (rangeMD rt (res_Headers res)) (λ p, perform rt (SendHeader p)) ;;
  forPairs rt (rangeMD rt (res_Trailers res)) (λ p, performAlways (SetTrailer p)) ;;
  checkStatus (res_Status res) ;;
  sendMessages rt md (res_Messages res).

(** The loop has no [return] on the success path: it goes on to the next
    matcher, and [return nil] follows it. *)
Fixpoint serverMatch (rt : Runtime) (md : MethodDescriptor) (r : Request)
    (ms : list matcher) (c : call)
    : list matcher * call * outcome (error + unit) :=
  match ms with
  | [] => ([], c, Returned (inr ()))
  | m :: ms' =>
      if evaluate m r then
        match invoke m r md with
        | None => (logRequest r m :: ms', c, Panicked)
        | Some res =>
            match serverReply rt md res c with
            | (c', inl e) => (logRequest r m :: ms', c', Returned (inl e))
            | (c', inr _) =>
                let '(ms'', c'', o) := serverMatch rt md r ms' c' in
                (logRequest r m :: ms'', c'', o)
            end
        end
      else
        let '(ms'', c', o) := serverMatch rt md r ms' c in
        (m :: ms'', c', o)
  end.

Definition createServerStreamingHandler (rt : Runtime) (md : MethodDescriptor)
    (s : Server) (ctx : option MD) (inbox : list recv)
    : Server * call * outcome (error + unit) :=
  match inbox with
  | [] => (s, newCall, Blocked)
  | (RecvErr e | RecvBad e) as x :: _ =>
      (s, receive x newCall, Returned (inl e))
  | RecvDoc doc as x :: _ =>
      let r := buildRequest md ctx doc in
      let s1 := record r s in
      let '(ms, c, o) := serverMatch rt md r (matchers s1) (receive x newCall) in
      (setMatchers ms s1, c, o)
  end.

(** *** Client streaming *)

(** The status is checked and the message encoded before the headers go out;
    the reply is the result of the one [SendMsg]. *)
Definition clientReply (rt : Runtime) (md : MethodDescriptor) (res : Response)
    : io unit :=
  checkStatus (res_Status res) ;;
  mes ←io firstMessage rt md res ;;
  forPairs rt (rangeMD rt (res_Headers res)) (λ p, perform rt (SendHeader p)) ;;
  forPairs rt (rangeMD rt (res_Trailers res)) (λ p, performAlways (SetTrailer p)) ;;
  perform rt (SendMsg mes).

(** The inner loop, over the matchers, for one buffered request: [None] when
    the loop ends without a match (the outer loop then takes the next
    request), otherwise what the handler returns with. *)
Fixpoint clientMatch (rt : Runtime) (md : MethodDescriptor) (r : Request)
    (ms : list matcher) (c : call)
    : option (list matcher * call * outcome (error + unit)) :=
  match ms with
  | [] => None
  | m :: ms' =>
      if evaluate m r then
        match invoke m r md with
        | None => Some (logRequest r m :: ms', c, Panicked)
        | Some res =>
            let '(c', o) := clientReply rt md res c in
            Some (logRequest r m :: ms', c', Returned o)
        end
      else
        '(ms'', c', o) ← clientMatch rt md r ms' c;
        Some (m :: ms'', c', o)
  end.

(** [for _, r := range rs { for _, m := range s.matchers { ... } }] and the
    not-found return after it. *)
Fixpoint clientScan (rt : Runtime) (md : MethodDescriptor) (rs : list Request)
    (ms : list matcher) (c : call)
    : list matcher * call * outcome (error + unit) :=
  match rs with
  | [] => (ms, c, Returned (inl notFound))
  | r :: rs' =>
      match clientMatch rt md r ms c with
      | Some result => result
      | None => clientScan rt md rs' ms c
      end
  end.

(** The receive loop.  An error of [RecvMsg] other than [io.EOF] is not
    handled: the loop calls [RecvMsg] again. *)
Fixpoint clientLoop (rt : Runtime) (md : MethodDescriptor) (ctx : option MD)
    (inbox : list recv) (rs : list Request) (s : Server) (c : call)
    : Server * call * outcome (error + unit) :=
  match inbox with
  | [] => (s, c, Blocked)
  | x :: inbox' =>
      let c := receive x c in
      match x with
      | RecvDoc doc =>
          let r := buildRequest md ctx doc in
          clientLoop rt md ctx inbox' (rs ++ [r]) (record r s) c
      | RecvBad e => (s, c, Returned (inl e))
      | RecvErr EOF =>
          let '(ms, c', o) := clientScan rt md rs (matchers s) c in
          (setMatchers ms s, c', o)
      | RecvErr _ => clientLoop rt md ctx inbox' rs s c
      end
  end.

Definition createClientStreamingHandler (rt : Runtime) (md : MethodDescriptor)
    (s : Server) (ctx : option MD) (inbox : list recv)
    : Server * call * outcome (error + unit) :=
  clientLoop rt md ctx inbox [] s newCall.

(** *** Bidirectional streaming *)

(** Headers go out only while [headerSent] is false; it becomes true with the
    first header the runtime accepts. *)
Definition biReply (rt : Runtime) (md : MethodDescriptor) (res : Response)
    : io unit :=
  (λ c, if headerSent c then io_ret () c
        else forPairs rt (rangeMD rt (res_Headers res))
               (λ p, perform rt (SendHeader p) ;; latch) c) ;;
  forPairs rt (rangeMD rt (res_Trailers res)) (λ p, performAlways (SetTrailer p)) ;;
  checkStatus (res_Status res) ;;
  sendMessages rt md (res_Messages res).

(** The matcher loop for one received request.  [Returned (inr ())] stands
    for [continue L]: the first matcher that matches has replied and the
    receive loop goes on; [Returned (inl e)] is [return e]. *)
Fixpoint biMatch (rt : Runtime) (md : MethodDescriptor) (r : Request)
    (ms : list matcher) (c : call)
    : list matcher * call * outcome (error + unit) :=
  match ms with
  | [] => ([], c, Returned (inl notFound))
  | m :: ms' =>
      if evaluate m r then
        match invoke m r md with
        | None => (logRequest r m :: ms', c, Panicked)
        | Some res =>
            let '(c', o) := biReply rt md res c in
            (logRequest r m :: ms', c', Returned o)
        end
      else
        let '(ms'', c', o) := biMatch rt md r ms' c in
        (m :: ms'', c', o)
  end.

Fixpoint biLoop (rt : Runtime) (md : MethodDescriptor) (ctx : option MD)
    (inbox : list recv) (s : Server) (c : call)
    : Server * call * outcome (error + unit) :=
  match inbox with
  | [] => (s, c, Blocked)
  | x :: inbox' =>
      let c := receive x c in
      match x with
      | RecvErr EOF => (s, c, Returned (inr ()))
      | RecvErr e | RecvBad e => (s, c, Returned (inl e))
      | RecvDoc doc =>
          let r := buildRequest md ctx doc in
          let s1 := record r s in
          match biMatch rt md r (matchers s1) c with
          | (ms, c', Returned (inr _)) =>
              biLoop rt md ctx inbox' (setMatchers ms s1) c'
          | (ms, c', o) => (setMatchers ms s1, c', o)
          end
      end
  end.

Definition createBiStreamingHandler (rt : Runtime) (md : MethodDescriptor)
    (s : Server) (ctx : option MD) (inbox : list recv)
    : Server * call * outcome (error + unit) :=
  biLoop rt md ctx inbox s newCall.

(** *** Dispatch on the call shape *)

(** [createStreamHandler]; a method that streams in neither direction gets
    the unary handler from [createMethodDescs], and the default case here
    returns nil. *)
Definition createStreamHandler (rt : Runtime) (md : MethodDescriptor)
    (s : Server) (ctx : option MD) (inbox : list recv)
    : Server * call * outcome (error + unit) :=
  match IsStreamingClient md, IsStreamingServer md with
  | false, true => createServerStreamingHandler rt md s ctx inbox
  | true, false => createClientStreamingHandler rt md s ctx inbox
  | true, true => createBiStreamingHandler rt md s ctx inbox
  | false, false => (s, newCall, Returned (inr ()))
  end.

(** ** Life cycle and accessors *)

(** The answers of the network and TLS libraries: what [net.Listen] returns,
    whether [AppendCertsFromPEM] accepts the CA certificate, what
    [grpc.Dial] returns for an address. *)
Record Network := {
  Listen : error + string;
  AppendCertsFromPEM : string → bool;
  Dial : string → error + string;
}.

Definition setStatus_ (st : serverStatus) (s : Server) : Server :=
  {| matchers := matchers s; listener := listener s; stopped := stopped s;
     tlsc := tlsc s; cacert := cacert s; cc := cc s; requests := requests s;
     status := st; t_errors := t_errors s |}.

(** [s.t.Error(...)], [s.t.Fatal(...)] *)
Definition tReport (rep : report) (s : Server) : Server :=
  {| matchers := matchers s; listener := listener s; stopped := stopped s;
     tlsc := tlsc s; cacert := cacert s; cc := cc s; requests := requests s;
     status := status s; t_errors := t_errors s ++ [rep] |}.

Definition setListener (l : string) (s : Server) : Server :=
  {| matchers := matchers s; listener := Some l; stopped := stopped s;
     tlsc := tlsc s; cacert := cacert s; cc := cc s; requests := requests s;
     status := status s; t_errors := t_errors s |}.

Definition setConn (conn : option string) (s : Server) : Server :=
  {| matchers := matchers s; listener := listener s; stopped := stopped s;
     tlsc := tlsc s; cacert := cacert s; cc := conn; requests := requests s;
     status := status s; t_errors := t_errors s |}.

Definition setTLS (cfg : tlsConfig) (s : Server) : Server :=
  {| matchers := matchers s; listener := listener s; stopped := stopped s;
     tlsc := Some cfg; cacert := cacert s; cc := cc s; requests := requests s;
     status := status s; t_errors := t_errors s |}.

Definition stopServer (s : Server) : Server :=
  {| matchers := matchers s; listener := listener s; stopped := true;
     tlsc := tlsc s; cacert := cacert s; cc := cc s; requests := requests s;
     status := status s; t_errors := t_errors s |}.

(** The [Server] value [NewServer] builds before it starts it. *)
Definition emptyServer (tls : option tlsConfig) (ca : option string) : Server :=
  {| matchers := []; listener := None; stopped := false; tlsc := tls;
     cacert := ca; cc := None; requests := []; status := status_unknown;
     t_errors := [] |}.

(** The status is [status_starting] while the function runs and
    [status_start] when it returns, also when [net.Listen] failed. *)
Definition startServer (net : Network) (s : Server) : Server :=
  let s := setStatus_ status_starting s in
  let s :=
    match Listen net with
    | inl err => tReport (ErrorOf err) s
    | inr l => setListener l s
    end in
  setStatus_ status_start s.

Definition NewServer (net : Network) (tls : option tlsConfig)
    (ca : option string) : Server :=
  startServer net (emptyServer tls ca).

Definition notStarted : report := Error_ "server is not started yet".

(** [Close]: [GracefulStop], or [Stop] after five seconds; either way the
    gRPC server is stopped when [Close] returns.  The listener field is left
    as it is. *)
Definition Close (s : Server) : Server :=
  let s := setStatus_ status_closing s in
  let s :=
    match listener s with
    | None => tReport notStarted s
    | Some _ =>
        let s := match cc s with
                 | Some _ => setConn None s
                 | None => s
                 end in
        stopServer s
    end in
  setStatus_ status_closed s.

Definition Addr (s : Server) : Server * string :=
  match listener s with
  | None => (tReport notStarted s, "")
  | Some l => (s, l)
  end.

(** [Conn] returns the connection, or nil, or does not return because
    [t.Fatal] ended the test. *)
Inductive connResult :=
| ConnReturned (conn : option string)
| ConnFatal.

Definition Conn (net : Network) (s : Server) : Server * connResult :=
  match listener s with
  | None => (tReport notStarted s, ConnReturned None)
  | Some l =>
      let dial (s : Server) :=
        match Dial net l with
        | inl err => (tReport (ErrorOf err) s, ConnReturned None)
        | inr conn => (setConn (Some conn) s, ConnReturned (Some conn))
        end in
      match tlsc s with
      | None => dial s
      | Some cfg =>
          match cacert s with
          | None =>
              dial (setTLS {| InsecureSkipVerify := true;
                              RootCAs := RootCAs cfg |} s)
          | Some ca =>
              if AppendCertsFromPEM net ca then
                dial (setTLS {| InsecureSkipVerify := InsecureSkipVerify cfg;
                                RootCAs := Some ca |} s)
              else
                (tReport (Fatal (OtherError "failed to append ca certs")) s,
                 ConnFatal)
          end
      end
  end.

(** *** Handler tables *)

(** [md.Name()]: the last component of the full name. *)
Definition Name (md : MethodDescriptor) : string :=
  (splitMethodFullName (FullName md)).2.

(** [grpc.MethodDesc] and [grpc.StreamDesc]; a handler is a function of the
    server it was created on. *)
Record MethodDesc := {
  MethodName : string;
  Handler : Server → option MD → recv
            → Server * call * outcome (error + dynMessage);
}.

Record StreamDesc := {
  StreamName : string;
  StreamHandler : Server → option MD → list recv
                  → Server * call * outcome (error + unit);
  ServerStreams : bool;
  ClientStreams : bool;
}.

(** [!md.IsStreamingClient() && !md.IsStreamingServer()] *)
Definition isUnary (md : MethodDescriptor) : bool :=
  negb (IsStreamingClient md) && negb (IsStreamingServer md).

Definition createMethodDescs (rt : Runtime) (mds : list MethodDescriptor)
    : list MethodDesc * list StreamDesc :=
  foldl (λ (acc : list MethodDesc * list StreamDesc) md,
           let '(methods, streams) := acc in
           if isUnary md then
             (methods ++ [{| MethodName := Name md;
                             Handler := createUnaryHandler rt md |}],
              streams)
           else
             (methods,
              streams ++ [{| StreamName := Name md;
                             StreamHandler := createStreamHandler rt md;
                             ServerStreams := IsStreamingServer md;
                             ClientStreams := IsStreamingClient md |}]))
        ([], []) mds.

(** *** Schema files *)

(** [contains] *)
Fixpoint contains (s : list string) (e : string) : bool :=
  match s with
  | [] => false
  | v :: s' => if bool_decide (e = v) then true else contains s' e
  end.

(** What the accessor hands to the parser: the empty reader
    [io.NopCloser(strings.NewReader(""))] with a nil error, or whatever
    [os.Open(filename)] gives, a file or an error. *)
Inductive reader :=
| EmptyReader
| OsOpen (filename : string).

(** The accessor [resolvePaths] returns: a closure over its variable
    [opened], which is written before [os.Open] is called. *)
Definition accessor (opened : list string) (filename : string)
    : list string * reader :=
  if contains opened filename then (opened, EmptyReader)
  else (opened ++ [filename], OsOpen filename).

(** [resolvePaths].  [unique] is defined in a file that is not at hand and
    [filepath.Split] in the standard library: both are parameters.  The
    third component is the state the accessor starts in. *)
Definition resolvePaths (unique : list string → list string)
    (split : string → string * string) (importPaths protos : list string)
    : list string * list string * list string :=
  let '(resolvedIPaths, resolvedProtos) :=
    foldl (λ (acc : list string * list string) p,
             let '(d, b) := split p in (acc.1 ++ [d], acc.2 ++ [b]))
          (importPaths, []) protos in
  (unique resolvedIPaths, unique resolvedProtos, []).

(** The parser's successive calls of the accessor. *)
Fixpoint accessAll (opened : list string) (filenames : list string)
    : list string * list reader :=
  match filenames with
  | [] => (opened, [])
  | f :: filenames' =>
      let '(opened1, rd) := accessor opened f in
      let '(opened2, rds) := accessAll opened1 filenames' in
      (opened2, rd :: rds)
  end.

(** ** Vocabulary of the properties *)

(** Every predicate of the matcher returns true on the request. *)
Definition passes (m : matcher) (r : Request) : Prop :=
  Forall (λ fn : matchFunc, fn r = true) (matchFuncs m).

#[global] Instance passes_dec m r : Decision (passes m r) :=
  Forall_dec (λ fn : matchFunc, fn r = true) (matchFuncs m).

(** The matcher a registration has just returned. *)
Definition registered (s : Server) : option matcher := last (matchers s).

(** The replies streamed and the items received in a trace. *)
Definition isSendMsg (ev : event) : option dynMessage :=
  match ev with SendMsg mes => Some mes | _ => None end.

Definition isReceived (ev : event) : option recv :=
  match ev with Received x => Some x | _ => None end.

Definition sent (tr : list event) : list dynMessage := omap isSendMsg tr.

Definition receipts (tr : list event) : list recv := omap isReceived tr.

(** The three parts of what a handler leaves behind. *)
Definition finalServer {A} (x : Server * call * outcome A) : Server := x.1.1.
Definition finalCall {A} (x : Server * call * outcome A) : call := x.1.2.
Definition finalOutcome {A} (x : Server * call * outcome A) : outcome A := x.2.

(** An action that adds to the trace nothing the observation [obs] sees. *)
Definition keeps {X A} (obs : event → option X) (a : io A) : Prop :=
  ∀ c, omap obs (trace (a c).1) = omap obs (trace c).

(** The first matcher, in registration order, all of whose predicates pass,
    with its position; and all of them. *)
Definition firstMatch (ms : list matcher) (r : Request) : option (nat * matcher) :=
  list_find (λ m, passes m r) ms.

Definition allMatches (ms : list matcher) (r : Request) : list matcher :=
  filter (λ m, passes m r) ms.

(** What a handler does with the matcher it selected: call its handler and
    hand the response to the reply code of the call shape. *)
Definition respond {A} (reply : Response → io A) (m : matcher) (r : Request)
    (md : MethodDescriptor) (c : call) : call * outcome (error + A) :=
  match invoke m r md with
  | None => (c, Panicked)
  | Some res => let '(c', o) := reply res c in (c', Returned o)
  end.

(** A document encoded for the method's output type, or the codec's error. *)
Definition encoded (rt : Runtime) (md : MethodDescriptor) (doc : Message)
    : error + dynMessage :=
  match unmarshal rt (Output md) doc with
  | inl e => inl e
  | inr fields => inr {| descriptor := Output md; content := fields |}
  end.

(** The single reply of a response without an error status. *)
Definition singleReply (rt : Runtime) (md : MethodDescriptor) (res : Response)
    : error + dynMessage :=
  match res_Messages res with
  | [] => inr (NewMessage (Output md))
  | doc :: _ => encoded rt md doc
  end.

(** The status of a response when it is an error: present, and not OK. *)
Definition errorStatus (res : Response) : option Status :=
  match res_Status res with
  | Some st => if decide (st_code st = codes.OK) then None else Some st
  | None => None
  end.

(** The documents among the items received, and the items after which the
    client-streaming loop receives again: a document, or an error of
    [RecvMsg] other than [io.EOF]. *)
Definition docsOf (xs : list recv) : list Message :=
  omap (λ x, match x with RecvDoc doc => Some doc | _ => None end) xs.

Definition receivesOn (x : recv) : Prop :=
  match x with
  | RecvDoc _ => True
  | RecvErr e => e ≠ EOF
  | RecvBad _ => False
  end.

(** The server after it recorded the requests, the call after it received
    the items, one after the other. *)
Definition recordAll (rs : list Request) (s : Server) : Server :=
  foldl (λ s r, record r s) s rs.

Definition receiveAll (xs : list recv) (c : call) : call :=
  foldl (λ c x, receive x c) c xs.

(** The global log of a call that was given [inbox] when the server was
    [s] and the call [c], and that left [x]: the call received the first [n]
    items of the inbox, each once and in order, and the log grew by the
    requests built from the documents among them, one entry for each, in
    that order.  A call that waits for its next message has taken the whole
    inbox; a call that has ended has taken at least one item. *)
Definition recordsReceipts {A} (md : MethodDescriptor) (ctx : option MD)
    (s : Server) (c : call) (inbox : list recv)
    (x : Server * call * outcome A) : Prop :=
  ∃ n,
    receipts (trace (finalCall x)) = receipts (trace c) ++ take n inbox
    ∧ requests (finalServer x)
      = requests s ++ (buildRequest md ctx <$> docsOf (take n inbox))
    ∧ (finalOutcome x = Blocked → n = length inbox)
    ∧ (finalOutcome x ≠ Blocked → 0 < n ≤ length inbox).

(** The first pair, requests in receipt order and for each the matchers in
    registration order, in which the matcher passes on the request. *)
Fixpoint firstPair (rs : list Request) (ms : list matcher)
    : option (Request * (nat * matcher)) :=
  match rs with
  | [] => None
  | r :: rs' =>
      match firstMatch ms r with
      | Some im => Some (r, im)
      | None => firstPair rs' ms
      end
  end.

(** Server streaming, by the matchers that pass on the request: each calls
    its handler and replies, in registration order, until one does not
    complete (an error status, an error of the runtime or the codec, a
    panic); after the last the handler returns nil. *)
Fixpoint fireAll (rt : Runtime) (md : MethodDescriptor) (r : Request)
    (fired : list matcher) (c : call) : call * outcome (error + unit) :=
  match fired with
  | [] => (c, Returned (inr ()))
  | m :: fired' =>
      match respond (serverReply rt md) m r md c with
      | (c', Returned (inr _)) => fireAll rt md r fired' c'
      | stopped => stopped
      end
  end.

(** A runtime that accepts every call. *)
Definition accepting (rt : Runtime) : Prop :=
  ∀ tr ev, refuses rt tr ev = None.

(** How a matcher may change while calls are served: predicates and handler
    stay, and the log is extended by requests that pass the predicates, taken
    in order from [new], the requests the call added to the global log. *)
Definition logGrows (new : list Request) (m m' : matcher) : Prop :=
  matchFuncs m' = matchFuncs m
  ∧ handler m' = handler m
  ∧ ∃ added,
      m_requests m' = m_requests m ++ added
      ∧ Forall (passes m) added
      ∧ added `sublist_of` new.

(** Every matcher's log holds only requests that pass all its predicates,
    and holds them in the order of the global log. *)
Definition soundLogs (s : Server) : Prop :=
  Forall (λ m, Forall (passes m) (m_requests m)
               ∧ m_requests m `sublist_of` requests s)
         (matchers s).

(** Every matcher's log holds only requests that pass all its predicates
    and that are in the global log. *)
Definition faithfulLogs (s : Server) : Prop :=
  Forall (λ m, Forall (λ r, passes m r ∧ r ∈ requests s) (m_requests m))
         (matchers s).

(** One call took the server from [s] to [s']. *)
Definition logsGrow (s s' : Server) : Prop :=
  ∃ new,
    requests s' = requests s ++ new
    ∧ Forall2 (logGrows new) (matchers s) (matchers s').

(** Something was reported through [s.t] between [s] and [s']. *)
Definition reported (s s' : Server) : Prop :=
  ∃ rep, t_errors s' = t_errors s ++ [rep].

(** [m.Header("a", "1").Response(doc).Header("b", "2")] *)
Definition chainABX (u : strings.Unicode) (doc : Message) (m : matcher)
    : matcher :=
  matcher_Header u "b" "2" (matcher_Response doc (matcher_Header u "a" "1" m)).

(** [md[k]]: nil for a key that is not there, and for every key of the nil
    map. *)
Definition valuesOf (md : option MD) (k : string) : list string :=
  default [] (md ≫= λ entries, entries !! k).

(** ** The properties read without their conditions *)

(** The chaining property read for every matcher: the handler answers with
    a=1 and b=2 among the headers and with the one message. *)
Definition chainABX_on_any (u : strings.Unicode) (doc : Message) (m : matcher)
    : Prop :=
  ∀ r md, ∃ res,
    invoke (chainABX u doc m) r md = Some res
    ∧ "1" ∈ valuesOf (res_Headers res) "a"
    ∧ "2" ∈ valuesOf (res_Headers res) "b"
    ∧ res_Messages res = [doc].

(** The server-streaming property read without a condition: every message
    queued by a matcher that passes on the request is streamed. *)
Definition everyMatchStreams (rt : Runtime) (md : MethodDescriptor)
    (s : Server) (ctx : option MD) (doc : Message) : Prop :=
  let r := buildRequest md ctx doc in
  let x := createServerStreamingHandler rt md s ctx [RecvDoc doc] in
  ∀ m res d mes,
    m ∈ allMatches (matchers s) r → invoke m r md = Some res →
    d ∈ res_Messages res → encoded rt md d = inr mes →
    mes ∈ sent (trace (finalCall x)).

(** The property of the matchers' logs read at every point in time, also
    while calls overlap: a client-streaming call receives [docA] and waits
    for its next message; a unary call with [docB] is served; the
    client-streaming call, with its one buffered request, then reaches the
    end of its input.  The logs are still in receipt order. *)
Definition overlapKeepsOrder (rt : Runtime) (mdA mdB : MethodDescriptor)
    (s : Server) (ctx : option MD) (docA docB : Message) : Prop :=
  let a := createClientStreamingHandler rt mdA s ctx [RecvDoc docA] in
  let b := createUnaryHandler rt mdB (finalServer a) ctx (RecvDoc docB) in
  let a' := clientLoop rt mdA ctx [RecvErr EOF] [buildRequest mdA ctx docA]
              (finalServer b) (finalCall a) in
  soundLogs s → soundLogs (finalServer a').

(** The life-cycle property read by the status: outside of serving, each of
    [Addr], [Conn] and [Close] reports an error. *)
Definition inactiveUseReported (net : Network) (s : Server) : Prop :=
  status s ∈ [status_unknown; status_closing; status_closed] →
  reported s (Addr s).1 ∧ reported s (Conn net s).1 ∧ reported s (Close s).

(** ** Sample data *)

(** The route guide service of the repository's tests. *)
Definition getFeature : MethodDescriptor :=
  {| FullName := "routeguide.RouteGuide.GetFeature";
     IsStreamingClient := false; IsStreamingServer := false;
     Output := "routeguide.Feature" |}.

Definition listFeatures : MethodDescriptor :=
  {| FullName := "routeguide.RouteGuide.ListFeatures";
     IsStreamingClient := false; IsStreamingServer := true;
     Output := "routeguide.Feature" |}.

Definition recordRoute : MethodDescriptor :=
  {| FullName := "routeguide.RouteGuide.RecordRoute";
     IsStreamingClient := true; IsStreamingServer := false;
     Output := "routeguide.RouteSummary" |}.

Definition routeChat : MethodDescriptor :=
  {| FullName := "routeguide.RouteGuide.RouteChat";
     IsStreamingClient := true; IsStreamingServer := true;
     Output := "routeguide.RouteNote" |}.

(** A listener that opens, certificates that load, a dial that connects. *)
Definition localNet : Network :=
  {| Listen := inr "127.0.0.1:50051";
     AppendCertsFromPEM := λ _, true;
     Dial := λ addr, inr addr |}.

(** A network on which [net.Listen] fails. *)
Definition deadNet : Network :=
  {| Listen := inl (OtherError "listen tcp 127.0.0.1:0: bind: address already in use");
     AppendCertsFromPEM := λ _, true;
     Dial := λ addr, inr addr |}.

(** Unicode tables that are never consulted: the keys of the samples are
    strings of ASCII bytes. *)
Definition plainUnicode : strings.Unicode := {| strings.MapToLower := λ s, s |}.

(** A runtime that visits maps in key order, accepts every call and decodes
    every document into itself. *)
Definition plainRuntime : Runtime :=
  {| unicode := plainUnicode;
     mapOrder := map_to_list;
     refuses := λ _ _, None;
     unmarshal := λ _ doc, inr doc |}.

Definition freshServer : Server := NewServer localNet None None.

Definition docX : Message := {[ "x" := JNumber 1 ]}.
Definition docY : Message := {[ "y" := JNumber 2 ]}.

Definition hello : Message := {[ "message" := JString "hello" ]}.

Definition statusUnknown : Status :=
  {| st_code := codes.Unknown; st_message := "Unknown" |}.

(** [ts.Method("GetFeature").Response({"x": 1})] *)
Definition featureServer : Server :=
  chain 0 (matcher_Response docX) (Server_Method "GetFeature" freshServer).

(** [ts.Method("GetFeature").Status(unknown).Response({"x": 1})] *)
Definition failingServer : Server :=
  chain 0 (matcher_Response docX)
    (chain 0 (matcher_Status (Some statusUnknown))
       (Server_Method "GetFeature" freshServer)).

(** A predicate on the document, as [Match] takes it: the request carries a
    field named message. *)
Definition hasMessage : matchFunc :=
  λ r, bool_decide (is_Some (req_Message r !! "message")).

(** [ts.Match(hasMessage).Response({"message": "hello"})] *)
Definition chatServer : Server :=
  chain 0 (matcher_Response hello) (Server_Match hasMessage freshServer).

(** [ts.Match(func(r *Request) bool { return true }).Response({"message": "hello"})] *)
Definition anyServer : Server :=
  chain 0 (matcher_Response hello) (Server_Match (λ _, true) freshServer).

(** [ts.Method("ListFeatures").Response({"x": 1})] and
    [ts.Method("ListFeatures").Response({"y": 2})] *)
Definition twoReplies : Server :=
  chain 1 (matcher_Response docY)
    (Server_Method "ListFeatures"
       (chain 0 (matcher_Response docX)
          (Server_Method "ListFeatures" freshServer))).

(** The same with [.Status(unknown)] on the first matcher. *)
Definition failFirst : Server :=
  chain 0 (matcher_Status (Some statusUnknown)) twoReplies.

(** The server of [TestBidiStreaming]: the first matcher answers the note
    of client 0, the second echoes any note with client replaced by
    server.  (A note that is not a string makes the test's type assertion
    panic; the predicate here is false on it, the handler yields nothing.) *)
Definition note (who index : string) : Message :=
  {[ "message" := JString ("hello from " +:+ who +:+ "[" +:+ index +:+ "]") ]}.

Definition fromClient0 : matchFunc :=
  λ r, match req_Message r !! "message" with
       | Some (JString m) => strings.Contains m "hello from client[0]"
       | _ => false
       end.

Definition echo (r : Request) : option Response :=
  match req_Message r !! "message" with
  | None => Some (setStatus (Some statusUnknown) NewResponse)
  | Some (JString m) =>
      Some {| res_Headers := Some ∅;
              res_Messages :=
                [{[ "message" := JString (strings.Replace1 m "client" "server") ]}];
              res_Trailers := Some ∅; res_Status := None |}
  | Some _ => None
  end.

Definition testBidiServer : Server :=
  let s := Server_Method "RouteChat" freshServer in
  let s := chain 0 (matcher_Match fromClient0) s in
  let s := chain 0 (matcher_Header plainUnicode "hello" "header") s in
  let s := chain 0 (matcher_Response
                      (<["location" := JNull]> (note "server" "0"))) s in
  let s := Server_Method "RouteChat" s in
  let s := chain 1 (matcher_Header plainUnicode "hello" "header") s in
  chain 1 (matcher_Handler echo) s.


(** ** More of the code, and the vocabulary of its properties *)

(** [m.Response(d1).Response(d2)...] and [m.Header(k1, v1).Header(k2, v2)...] *)
Definition chainResponses (docs : list Message) (m : matcher) : matcher :=
  foldl (λ m doc, matcher_Response doc m) m docs.

Definition chainHeaders (u : strings.Unicode) (kvs : list (string * string))
    (m : matcher) : matcher :=
  foldl (λ m kv, matcher_Header u kv.1 kv.2 m) m kvs.

(** The values declared for the header key [k], in the order declared; the
    keys compare after lower-casing. *)
Definition valuesFor (u : strings.Unicode) (k : string)
    (kvs : list (string * string)) : list string :=
  omap (λ kv, if decide (strings.ToLower u kv.1 = k) then Some kv.2 else None)
       kvs.


(** The runtime calls a metadata loop makes when none is refused: one per
    value, the entries in the order [range] visits them. *)
Definition calls (rt : Runtime) (mk : MD → event)
    (entries : list (string * list string)) : list event :=
  entries ≫= λ kv, (λ vv, mk (metadata.Pairs (unicode rt) kv.1 vv)) <$> kv.2.

(** The call after the runtime took these further calls. *)
Definition extend (evs : list event) (c : call) : call :=
  {| trace := trace c ++ evs; headerSent := headerSent c |}.





(** The header calls of a trace, and an action that leaves [headerSent] set
    once it is. *)
Definition isSendHeader (ev : event) : option MD :=
  match ev with SendHeader md => Some md | _ => None end.

Definition keepsLatch {A} (a : io A) : Prop :=
  ∀ c, headerSent c = true → headerSent (a c).1 = true.


(** The number of log entries over all matchers. *)
Definition totalLogged (s : Server) : nat :=
  sum_list (length ∘ m_requests <$> matchers s).

(** [ts.Match(hasMessage).Response({"message": "hello"}).Header("hello", "header")] *)
Definition headerServer : Server :=
  chain 0 (matcher_Header plainUnicode "hello" "header") chatServer.


(** The fields of the server that belong to its life cycle are the same in
    [s'] as in [s]. *)
Definition sameLifecycle (s s' : Server) : Prop :=
  listener s' = listener s ∧ stopped s' = stopped s ∧ tlsc s' = tlsc s
  ∧ cacert s' = cacert s ∧ cc s' = cc s ∧ status s' = status s
  ∧ t_errors s' = t_errors s.

(** A server with a TLS configuration and a CA certificate. *)
Definition tlsServer : Server :=
  NewServer localNet
    (Some {| InsecureSkipVerify := false; RootCAs := None |}) (Some "ca.pem").

(** A network whose TLS library rejects the CA certificate. *)
Definition badCertNet : Network :=
  {| Listen := inr "127.0.0.1:50051";
     AppendCertsFromPEM := λ _, false;
     Dial := λ addr, inr addr |}.

(** Responses for the replies: a header a=1, a trailer t=9. *)
Definition headerA (res : Response) : Response :=
  {| res_Headers := Some {[ "a" := ["1"] ]}; res_Messages := res_Messages res;
     res_Trailers := res_Trailers res; res_Status := res_Status res |}.

Definition trailerT (res : Response) : Response :=
  {| res_Headers := res_Headers res; res_Messages := res_Messages res;
     res_Trailers := Some {[ "t" := ["9"] ]}; res_Status := res_Status res |}.

(** A runtime that takes one [SendHeader] on a stream and refuses the next,
    as grpc-go does. *)
Definition oneHeaderRuntime : Runtime :=
  {| unicode := plainUnicode;
     mapOrder := map_to_list;
     refuses := λ tr ev,
       match ev, omap isSendHeader tr with
       | SendHeader _, _ :: _ =>
           Some (OtherError "transport: SendHeader called multiple times")
       | _, _ => None
       end;
     unmarshal := λ _ doc, inr doc |}.

(** [twoReplies] with [.Header("hello", "header")] on both matchers. *)
Definition twoHeaders : Server :=
  chain 1 (matcher_Header plainUnicode "hello" "header")
    (chain 0 (matcher_Header plainUnicode "hello" "header") twoReplies).

(** * Properties *)

(** ** The definitions on small inputs *)

Example Split_path :
  strings.Split "routeguide.RouteGuide/GetFeature" "/"
  = ["routeguide.RouteGuide"; "GetFeature"].
Proof. reflexivity. Qed.

Example Split_leading : strings.Split "/a" "/" = [""; "a"].
Proof. reflexivity. Qed.

Example Split_empty : strings.Split "" "/" = [""].
Proof. reflexivity. Qed.

Example TrimPrefix_once : strings.TrimPrefix "//a" "/" = "/a".
Proof. reflexivity. Qed.

Example Contains_substring :
  strings.Contains "hello from client[0]" "client[0]" = true
  ∧ strings.Contains "hello from client[1]" "client[0]" = false.
Proof. split; reflexivity. Qed.

Example splitMethodFullName_getFeature :
  splitMethodFullName "routeguide.RouteGuide.GetFeature"
  = ("routeguide.RouteGuide", "GetFeature").
Proof. reflexivity. Qed.

(** On keys of ASCII bytes the Unicode tables are not consulted. *)
Example Append_lowers_key (u : strings.Unicode) :
  metadata.Append u (metadata.Append u ∅ "Hello" ["x"]) "hello" ["y"] !! "hello"
  = Some ["x"; "y"].
Proof. reflexivity. Qed.

Example methodMatchFunc_samples :
  let r := newRequest getFeature ∅ in
  methodMatchFunc "GetFeature" r = true
  ∧ methodMatchFunc "/routeguide.RouteGuide/GetFeature" r = true
  ∧ methodMatchFunc "routeguide.RouteGuide/GetFeature" r = true
  ∧ methodMatchFunc "other.Service/GetFeature" r = false
  ∧ methodMatchFunc "ListFeatures" r = false.
Proof. repeat split; reflexivity. Qed.

(** A matcher for GetFeature answering {x:1}: the call succeeds with it and
    both logs hold the one request. *)
Example unary_reply :
  let x := createUnaryHandler plainRuntime getFeature featureServer None
             (RecvDoc ∅) in
  finalOutcome x
  = Returned (inr {| descriptor := "routeguide.Feature"; content := docX |})
  ∧ requests (finalServer x) = [newRequest getFeature ∅]
  ∧ (m_requests <$> matchers (finalServer x)) = [[newRequest getFeature ∅]].
Proof. repeat split; reflexivity. Qed.

(** No matcher registered: not-found, and the global log has the request. *)
Example unary_no_matcher :
  let x := createUnaryHandler plainRuntime getFeature freshServer None
             (RecvDoc ∅) in
  finalOutcome x = Returned (inl notFound)
  ∧ requests (finalServer x) = [newRequest getFeature ∅].
Proof. split; reflexivity. Qed.

(** A matcher without a handler: the call panics after the request went
    into both logs. *)
Example unary_nil_handler :
  let x := createUnaryHandler plainRuntime getFeature
             (Server_Method "GetFeature" freshServer) None (RecvDoc ∅) in
  finalOutcome x = Panicked
  ∧ requests (finalServer x) = [newRequest getFeature ∅]
  ∧ (m_requests <$> matchers (finalServer x)) = [[newRequest getFeature ∅]].
Proof. repeat split; reflexivity. Qed.

(** A client-streaming call that has received two documents and waits:
    both are in the global log, none in the matcher's log yet. *)
Example client_streaming_waiting :
  let x := createClientStreamingHandler plainRuntime recordRoute chatServer
             None [RecvDoc hello; RecvDoc ∅] in
  finalOutcome x = Blocked
  ∧ requests (finalServer x)
    = [newRequest recordRoute hello; newRequest recordRoute ∅]
  ∧ (m_requests <$> matchers (finalServer x)) = [[]].
Proof. repeat split; reflexivity. Qed.

(** [TestBidiStreaming]: five notes from the client, five replies, the
    i-th from server[i]; five requests in the global log; the header went
    out once. *)
Example bidi_test :
  let inbox := (RecvDoc <$> (note "client" <$> ["0"; "1"; "2"; "3"; "4"]))
               ++ [RecvErr EOF] in
  let x := createBiStreamingHandler plainRuntime routeChat testBidiServer
             None inbox in
  finalOutcome x = Returned (inr ())
  ∧ ((λ mes, content mes !! "message") <$> sent (trace (finalCall x)))
    = ((λ i, note "server" i !! "message") <$> ["0"; "1"; "2"; "3"; "4"])
  ∧ length (requests (finalServer x)) = 5
  ∧ (length ∘ m_requests <$> matchers (finalServer x)) = [1; 4]
  ∧ headerSent (finalCall x) = true.
Proof. repeat split; vm_compute; reflexivity. Qed.

(** ** Byte strings *)

Lemma Split_not_nil s sep : strings.Split s sep ≠ [].
Proof.
  destruct s as [|c s]; simpl; [done|].
  destruct (Ascii.eqb c sep); [done|].
  by destruct (strings.Split s sep).
Qed.

(** Looking for a one-byte string is looking for the byte. *)
Lemma Contains_cons c s sep :
  strings.Contains (String c s) (String sep EmptyString)
  = if Ascii.eqb c sep then true
    else strings.Contains s (String sep EmptyString).
Proof.
  cbn [strings.Contains strings.stripPrefix]. rewrite (Ascii.eqb_sym sep c).
  by destruct (Ascii.eqb c sep).
Qed.

Lemma Split_no_sep s sep :
  strings.Contains s (String sep EmptyString) = false →
  strings.Split s sep = [s].
Proof.
  induction s as [|c s IH]; [done|].
  rewrite Contains_cons. cbn [strings.Split].
  destruct (Ascii.eqb c sep); [done|].
  intros H. by rewrite (IH H).
Qed.

Lemma Split_app_sep p m sep :
  strings.Contains m (String sep EmptyString) = false →
  strings.Split (p +:+ String sep m) sep = strings.Split p sep ++ [m].
Proof.
  intros Hm. induction p as [|c p IH]; simpl.
  - rewrite Ascii.eqb_refl. by rewrite Split_no_sep.
  - destruct (Ascii.eqb c sep); [by rewrite IH|].
    rewrite IH. pose proof (Split_not_nil p sep).
    by destruct (strings.Split p sep).
Qed.

Lemma Join_Split p sep :
  strings.Join (strings.Split p sep) (String sep EmptyString) = p.
Proof.
  induction p as [|c p IH]; simpl; [done|].
  destruct (Ascii.eqb_spec c sep) as [->|_].
  - pose proof (Split_not_nil p sep).
    destruct (strings.Split p sep) eqn:E; [done|].
    simpl in *. by rewrite IH.
  - pose proof (Split_not_nil p sep).
    destruct (strings.Split p sep) as [|x [|y l]] eqn:E; [done|..];
      simpl in *; by rewrite <- IH.
Qed.

Lemma allButLast_snoc l x : allButLast (l ++ [x]) = l.
Proof.
  unfold allButLast. rewrite length_app. simpl.
  replace (length l + 1 - 1) with (length l) by lia.
  by rewrite take_app_length.
Qed.

Lemma lastElem_snoc l x : lastElem (l ++ [x]) = x.
Proof.
  unfold lastElem. rewrite length_app. simpl.
  replace (length l + 1 - 1) with (length l + 0) by lia.
  by rewrite lookup_app_r, Nat.add_0_r, Nat.sub_diag by lia.
Qed.

Lemma Contains_app_sep p m sep :
  strings.Contains (p +:+ String sep m) (String sep EmptyString) = true.
Proof.
  induction p as [|c p IH].
  - change (EmptyString +:+ String sep m) with (String sep m).
    by rewrite Contains_cons, Ascii.eqb_refl.
  - change (String c p +:+ String sep m) with (String c (p +:+ String sep m)).
    rewrite Contains_cons. by destruct (Ascii.eqb c sep).
Qed.

Lemma TrimPrefix_slash s : strings.TrimPrefix (String "/" s) "/" = s.
Proof. reflexivity. Qed.

Lemma TrimPrefix_other c s :
  c ≠ "/"%char → strings.TrimPrefix (String c s) "/" = String c s.
Proof.
  intros Hc. unfold strings.TrimPrefix.
  change (strings.stripPrefix "/" (String c s))
    with (if Ascii.eqb "/"%char c then Some s else None).
  destruct (Ascii.eqb_spec "/"%char c) as [E|_]; [congruence|reflexivity].
Qed.

(** Splitting the name with one leading slash trimmed: the pieces before the
    last slash join back to the part before it, trimmed. *)
Lemma Split_TrimPrefix p m :
  strings.Contains m "/" = false →
  let splitted := strings.Split (strings.TrimPrefix (p +:+ String "/" m) "/") "/" in
  strings.Join (allButLast splitted) "/" = strings.TrimPrefix p "/"
  ∧ lastElem splitted = m.
Proof.
  intros Hm. destruct p as [|c p].
  - change (EmptyString +:+ String "/" m) with (String "/" m).
    rewrite TrimPrefix_slash. cbv zeta. rewrite Split_no_sep by done. done.
  - change (String c p +:+ String "/" m) with (String c (p +:+ String "/" m)).
    cbv zeta. destruct (decide (c = "/"%char)) as [->|Hc].
    + rewrite !TrimPrefix_slash, Split_app_sep by done.
      by rewrite allButLast_snoc, lastElem_snoc, Join_Split.
    + rewrite !TrimPrefix_other by done.
      change (String c (p +:+ String "/" m)) with (String c p +:+ String "/" m).
      rewrite Split_app_sep by done.
      by rewrite allButLast_snoc, lastElem_snoc, Join_Split.
Qed.

(** ** Predicates *)

Lemma evaluate_fold (fns : list matchFunc) (r : Request) (b : bool) :
  fold_left (λ (match_ : bool) (fn : matchFunc),
               if negb (fn r) then false else match_) fns b
  = b && forallb (λ fn, fn r) fns.
Proof.
  revert b. induction fns as [|fn fns IH]; intros b; simpl.
  - by rewrite andb_true_r.
  - rewrite IH. by destruct (fn r), b.
Qed.

(** The loop that calls every predicate computes their conjunction. *)
Lemma evaluate_passes (m : matcher) (r : Request) :
  evaluate m r = true ↔ passes m r.
Proof.
  unfold evaluate, passes. rewrite evaluate_fold. simpl.
  rewrite forallb_forall, Forall_forall.
  setoid_rewrite list_elem_of_In. done.
Qed.

Lemma evaluate_decide (m : matcher) (r : Request) :
  evaluate m r = bool_decide (passes m r).
Proof.
  apply eq_true_iff_eq. rewrite evaluate_passes. by rewrite bool_decide_eq_true.
Qed.

(** C10. A matcher built by [Server.Method(name)] has one predicate.  For a
    name without a slash it holds exactly of the requests whose method is
    the name, whatever their service; for a name [p/m], with no slash in
    [m], exactly of those whose service is [p] without one leading slash
    and whose method is [m]. *)
Theorem Method_predicate (s : Server) (name : string) (m : matcher) (r : Request) :
  registered (Server_Method name s) = Some m →
  (strings.Contains name "/" = false →
     (evaluate m r = true ↔ req_Method r = name))
  ∧ (∀ p mth : string,
       name = p +:+ String "/" mth → strings.Contains mth "/" = false →
       (evaluate m r = true ↔
          req_Service r = strings.TrimPrefix p "/" ∧ req_Method r = mth)).
Proof.
  unfold registered, Server_Method, register. simpl. rewrite last_snoc.
  intros [= <-]. split.
  - intros Hname. rewrite evaluate_passes. unfold passes. simpl.
    rewrite Forall_singleton. unfold methodMatchFunc. rewrite Hname. simpl.
    apply bool_decide_eq_true.
  - intros p mth -> Hm. rewrite evaluate_passes. unfold passes. simpl.
    rewrite Forall_singleton. unfold methodMatchFunc.
    rewrite Contains_app_sep. simpl.
    destruct (Split_TrimPrefix p mth Hm) as [-> ->].
    rewrite andb_true_iff, !bool_decide_eq_true. done.
Qed.

Lemma Method_predicate_witness :
  let byName := Server_Method "GetFeature" freshServer in
  let byPath := Server_Method "/routeguide.RouteGuide/GetFeature" freshServer in
  let r := newRequest getFeature ∅ in
  (∃ m, registered byName = Some m ∧ evaluate m r = true)
  ∧ (∃ m, registered byPath = Some m ∧ evaluate m r = true).
Proof.
  intros byName byPath r. split.
  - eexists. split; [reflexivity|].
    destruct (Method_predicate freshServer "GetFeature" _ r eq_refl) as [H _].
    apply H; reflexivity.
  - eexists. split; [reflexivity|].
    destruct (Method_predicate freshServer "/routeguide.RouteGuide/GetFeature"
                _ r eq_refl) as [_ H].
    apply (H "/routeguide.RouteGuide" "GetFeature"); [reflexivity..|].
    split; reflexivity.
Defined.

(** ** Decorators *)

Lemma invoke_decorate mutation m r md :
  invoke (decorate mutation m) r md
  = mutation <$> prevResponse (handler m) r md.
Proof. reflexivity. Qed.

Lemma invoke_decorateWith mutation m r md :
  invoke (decorateWith mutation m) r md
  = prevResponse (handler m) r md ≫= mutation.
Proof. reflexivity. Qed.

Lemma lookup_Append_eq u (md : MD) (k value : string) :
  metadata.Append u md k [value] !! strings.ToLower u k
  = Some (default [] (md !! strings.ToLower u k) ++ [value]).
Proof. unfold metadata.Append. by rewrite lookup_insert_eq. Qed.

Lemma lookup_Append_ne u (md : MD) (k k' : string) (vals : list string) :
  strings.ToLower u k ≠ k' → metadata.Append u md k vals !! k' = md !! k'.
Proof.
  intros. unfold metadata.Append. destruct vals; [done|].
  by rewrite lookup_insert_ne.
Qed.

(** C3, as the code has it.  The chain [Header("a","1")], [Response(doc)],
    [Header("b","2")] wraps the handler installed before it.  Invoked, it
    takes that handler's response (the empty response of [NewResponse] when
    no handler was installed) and, in declaration order, appends 1 under a,
    appends [doc] to the messages and appends 2 under b; nothing else
    changes.  When that handler returns nil, or a response whose [Headers]
    map is nil, the invocation panics in the first [Append]. *)
Theorem chainABX_response (u : strings.Unicode) (doc : Message) (m : matcher)
    (r : Request) (md : MethodDescriptor) :
  match prevResponse (handler m) r md with
  | None => invoke (chainABX u doc m) r md = None
  | Some res0 =>
      match res_Headers res0 with
      | None => invoke (chainABX u doc m) r md = None
      | Some headers0 =>
          ∃ res headers,
            invoke (chainABX u doc m) r md = Some res
            ∧ res_Headers res = Some headers
            ∧ headers !! "a" = Some (default [] (headers0 !! "a") ++ ["1"])
            ∧ headers !! "b" = Some (default [] (headers0 !! "b") ++ ["2"])
            ∧ (∀ k, k ≠ "a" → k ≠ "b" → headers !! k = headers0 !! k)
            ∧ res_Messages res = res_Messages res0 ++ [doc]
            ∧ res_Trailers res = res_Trailers res0
            ∧ res_Status res = res_Status res0
      end
  end.
Proof.
  unfold chainABX, matcher_Header, matcher_Response.
  rewrite invoke_decorateWith. cbn [handler decorate decorateWith setHandler].
  cbn [prevResponse].
  destruct (prevResponse (handler m) r md) as [res0|]; [|done].
  cbn [mbind option_bind]. unfold appendHeader at 2 4.
  destruct (res_Headers res0) as [headers0|]; [|done].
  eexists _, _. split; [reflexivity|]. split; [reflexivity|]. repeat split.
  - rewrite lookup_Append_ne by done. apply (lookup_Append_eq u _ "a").
  - rewrite (lookup_Append_eq u _ "b"). by rewrite lookup_Append_ne.
  - intros k Ha Hb. by rewrite !lookup_Append_ne.
Qed.

(** On a matcher that has no handler yet the chain gives exactly the
    headers a=1, b=2 and the one message. *)
Lemma chainABX_response_witness :
  ∃ res headers,
    invoke (chainABX plainUnicode docX
              (newMatcher (methodMatchFunc "GetFeature")))
      (newRequest getFeature ∅) getFeature = Some res
    ∧ res_Headers res = Some headers
    ∧ headers !! "a" = Some ["1"]
    ∧ headers !! "b" = Some ["2"]
    ∧ (∀ k, k ≠ "a" → k ≠ "b" → headers !! k = None)
    ∧ res_Messages res = [docX].
Proof.
  destruct (chainABX_response plainUnicode docX
              (newMatcher (methodMatchFunc "GetFeature"))
              (newRequest getFeature ∅) getFeature)
    as (res & headers & Hres & Hh & Ha & Hb & Hk & Hm & _).
  exists res, headers. repeat split; assumption.
Defined.

(** A handler of the user that returns [&Response{}]: no message, no
    status, and the two maps nil. *)
Example chainABX_nil_map :
  invoke (chainABX plainUnicode docX
            (matcher_Handler
               (λ _, Some {| res_Headers := None; res_Messages := [];
                             res_Trailers := None; res_Status := None |})
               (newMatcher (methodMatchFunc "GetFeature"))))
    (newRequest getFeature ∅) getFeature
  = None.
Proof. reflexivity. Qed.

(** A matcher that already answers with {y:2} answers, after the chain, with
    the two messages {y:2}, {x:1}. *)
Lemma chainABX_on_any_counterexample :
  ¬ chainABX_on_any plainUnicode docX
      (matcher_Response docY (newMatcher (methodMatchFunc "GetFeature"))).
Proof.
  intros H.
  destruct (H (newRequest getFeature ∅) getFeature) as (res & Hres & _ & _ & Hm).
  vm_compute in Hres. injection Hres as <-. discriminate Hm.
Qed.

(** ** Selection of a matcher *)

Lemma firstMatch_cons m ms r :
  firstMatch (m :: ms) r
  = if evaluate m r then Some (0, m)
    else prod_map S id <$> firstMatch ms r.
Proof.
  unfold firstMatch. simpl. rewrite evaluate_decide.
  by destruct (decide (passes m r)) as [H|H];
    [rewrite bool_decide_eq_true_2|rewrite bool_decide_eq_false_2].
Qed.

(** [firstMatch] is the earliest matcher that passes. *)
Lemma firstMatch_Some ms r i m :
  firstMatch ms r = Some (i, m) →
  ms !! i = Some m ∧ passes m r
  ∧ ∀ j m', j < i → ms !! j = Some m' → ¬ passes m' r.
Proof.
  unfold firstMatch. rewrite list_find_Some. intros (Hi & Hm & Hlt).
  repeat split; [done..|]. intros j m' Hj Hm'. by eapply Hlt.
Qed.

Lemma firstMatch_None ms r :
  firstMatch ms r = None → Forall (λ m, ¬ passes m r) ms.
Proof. unfold firstMatch. by rewrite list_find_None. Qed.


(** The unary loop: the first matcher that passes is logged and answers. *)
Lemma unaryMatch_firstMatch rt md r ms c :
  unaryMatch rt md r ms c
  = match firstMatch ms r with
    | Some (i, m) =>
        let '(c', o) := respond (unaryReply rt md) m r md c in
        (alter (logRequest r) i ms, c', o)
    | None => (ms, c, Returned (inl notFound))
    end.
Proof.
  induction ms as [|m ms IH]; [done|].
  rewrite firstMatch_cons. cbn [unaryMatch]. destruct (evaluate m r).
  - unfold respond. simpl. destruct (invoke m r md); [|done].
    by destruct (unaryReply rt md _ c).
  - rewrite IH. destruct (firstMatch ms r) as [[i m']|]; simpl; [|done].
    by destruct (respond (unaryReply rt md) m' r md c).
Qed.

(** C1. The unary handler answers with the earliest registered matcher all
    of whose predicates pass on the request, and with not-found when there
    is none. *)
Theorem unary_first_match (rt : Runtime) (md : MethodDescriptor) (s : Server)
    (ctx : option MD) (doc : Message) :
  let r := buildRequest md ctx doc in
  let c0 := receive (RecvDoc doc) newCall in
  ∃ selected : option (nat * matcher),
    match selected with
    | Some (i, m) =>
        matchers s !! i = Some m ∧ passes m r
        ∧ (∀ j m', j < i → matchers s !! j = Some m' → ¬ passes m' r)
    | None => Forall (λ m, ¬ passes m r) (matchers s)
    end
    ∧ createUnaryHandler rt md s ctx (RecvDoc doc)
      = match selected with
        | Some (i, m) =>
            let '(c, o) := respond (unaryReply rt md) m r md c0 in
            (chain i (logRequest r) (record r s), c, o)
        | None => (record r s, c0, Returned (inl notFound))
        end.
Proof.
  intros r c0. exists (firstMatch (matchers s) r). split.
  - destruct (firstMatch (matchers s) r) as [[i m]|] eqn:E.
    + by apply firstMatch_Some.
    + by apply firstMatch_None.
  - unfold createUnaryHandler. fold r c0. rewrite unaryMatch_firstMatch.
    simpl. destruct (firstMatch (matchers s) r) as [[i m]|].
    + by destruct (respond (unaryReply rt md) m r md c0).
    + by destruct s.
Qed.

(** ** Replies *)

Lemma checkStatus_run st c :
  checkStatus st c
  = (c, match st with
        | Some st =>
            if decide (st_code st = codes.OK) then inr ()
            else inl (StatusError st)
        | None => inr ()
        end).
Proof.
  unfold checkStatus, Status_Err. destruct st as [st|]; simpl; [|done].
  by destruct (decide (st_code st = codes.OK)).
Qed.

Lemma checkStatus_errorStatus res c :
  checkStatus (res_Status res) c
  = (c, match errorStatus res with
        | Some st => inl (StatusError st)
        | None => inr ()
        end).
Proof.
  rewrite checkStatus_run. unfold errorStatus.
  destruct (res_Status res) as [st|]; [|done].
  by destruct (decide (st_code st = codes.OK)).
Qed.

Lemma firstMessage_run rt md res c :
  firstMessage rt md res c = (c, singleReply rt md res).
Proof.
  unfold firstMessage, singleReply, encode, encoded.
  destruct (res_Messages res) as [|doc ?]; [done|].
  by destruct (unmarshal rt (Output md) doc).
Qed.

(** C6. When the runtime has taken the headers and trailers of the matched
    handler's response, an error status is what the unary call returns,
    whatever messages are queued; without one (no status, or the code OK)
    the call returns the first queued message, encoded, or the empty output
    message when none is queued. *)
Theorem unary_status_precedence (rt : Runtime) (md : MethodDescriptor)
    (s : Server) (ctx : option MD) (doc : Message)
    (i : nat) (m : matcher) (res : Response) (c1 : call) :
  let r := buildRequest md ctx doc in
  let c0 := receive (RecvDoc doc) newCall in
  firstMatch (matchers s) r = Some (i, m) →
  invoke m r md = Some res →
  (forPairs rt (rangeMD rt (res_Headers res)) (λ p, perform rt (SetHeader p)) ;;
   forPairs rt (rangeMD rt (res_Trailers res)) (λ p, perform rt (SetTrailer p))) c0
    = (c1, inr ()) →
  createUnaryHandler rt md s ctx (RecvDoc doc)
  = (chain i (logRequest r) (record r s), c1,
     Returned
       match errorStatus res with
       | Some st => inl (StatusError st)
       | None => singleReply rt md res
       end).
Proof.
  intros r c0 Hsel Hres Hemit.
  unfold createUnaryHandler. fold r c0. rewrite unaryMatch_firstMatch.
  simpl. rewrite Hsel. unfold respond. rewrite Hres.
  unfold unaryReply, io_bind in *.
  destruct (forPairs rt (rangeMD rt (res_Headers res)) _ c0) as [c' [e|[]]];
    [done|].
  rewrite Hemit, checkStatus_errorStatus, firstMessage_run.
  by destruct (errorStatus res).
Qed.

Lemma unary_status_precedence_witness :
  (createUnaryHandler plainRuntime getFeature failingServer None (RecvDoc ∅)).2
  = Returned (inl (StatusError statusUnknown)).
Proof.
  pose proof (unary_status_precedence plainRuntime getFeature failingServer
                None ∅ 0 _ _ _ eq_refl eq_refl eq_refl) as H.
  rewrite H. reflexivity.
Defined.

(** ** The global log *)

Create HintDb trace.

Section Keeps.
Context {X : Type} (obs : event → option X).

Lemma keeps_ret {A} (a : A) : keeps obs (io_ret a).
Proof. by intros c. Qed.

Lemma keeps_fail {A} (e : error) : keeps obs (@io_fail A e).
Proof. by intros c. Qed.

Lemma keeps_bind {A B} (m : io A) (k : A → io B) :
  keeps obs m → (∀ a, keeps obs (k a)) → keeps obs (io_bind m k).
Proof.
  intros Hm Hk c. unfold io_bind. specialize (Hm c).
  destruct (m c) as [c' [e|a]]; [done|].
  simpl in Hm. by rewrite Hk.
Qed.

Lemma omap_snoc_None (tr : list event) ev :
  obs ev = None → omap obs (tr ++ [ev]) = omap obs tr.
Proof. intros Hev. rewrite omap_app. simpl. by rewrite Hev, app_nil_r. Qed.

Lemma keeps_perform rt ev : obs ev = None → keeps obs (perform rt ev).
Proof.
  intros Hev c. unfold perform.
  destruct (refuses rt (trace c) ev); [done|]. by apply omap_snoc_None.
Qed.

Lemma keeps_performAlways ev : obs ev = None → keeps obs (performAlways ev).
Proof. intros Hev c. by apply omap_snoc_None. Qed.

Lemma keeps_latch : keeps obs latch.
Proof. by intros c. Qed.

Lemma keeps_forValues rt k v body :
  (∀ p, keeps obs (body p)) → keeps obs (forValues rt k v body).
Proof.
  intros Hbody. induction v as [|vv v IH]; simpl.
  - apply keeps_ret.
  - by apply keeps_bind.
Qed.

Lemma keeps_forPairs rt entries body :
  (∀ p, keeps obs (body p)) → keeps obs (forPairs rt entries body).
Proof.
  intros Hbody. induction entries as [|[k v] entries IH]; simpl.
  - apply keeps_ret.
  - apply keeps_bind; [by apply keeps_forValues|done].
Qed.

Lemma keeps_checkStatus st : keeps obs (checkStatus st).
Proof.
  unfold checkStatus.
  destruct (st ≫= Status_Err); [apply keeps_fail|apply keeps_ret].
Qed.

Lemma keeps_encode rt md doc : keeps obs (encode rt md doc).
Proof.
  unfold encode.
  destruct (unmarshal rt (Output md) doc); [apply keeps_fail|apply keeps_ret].
Qed.

Lemma keeps_firstMessage rt md res : keeps obs (firstMessage rt md res).
Proof.
  unfold firstMessage.
  destruct (res_Messages res); [apply keeps_ret|apply keeps_encode].
Qed.
End Keeps.

#[local] Hint Resolve keeps_ret keeps_fail keeps_bind keeps_perform
  keeps_performAlways keeps_latch keeps_forValues keeps_forPairs
  keeps_checkStatus keeps_encode keeps_firstMessage : trace.

Lemma keepsReceived_sendMessages rt md docs :
  keeps isReceived (sendMessages rt md docs).
Proof.
  induction docs as [|doc docs IH]; simpl; eauto 10 with trace.
Qed.

#[local] Hint Resolve keepsReceived_sendMessages : trace.

Lemma keepsReceived_unaryReply rt md res :
  keeps isReceived (unaryReply rt md res).
Proof. unfold unaryReply. eauto 10 with trace. Qed.

Lemma keepsReceived_serverReply rt md res :
  keeps isReceived (serverReply rt md res).
Proof. unfold serverReply. eauto 10 with trace. Qed.

Lemma keepsReceived_clientReply rt md res :
  keeps isReceived (clientReply rt md res).
Proof. unfold clientReply. eauto 10 with trace. Qed.

Lemma keepsReceived_biReply rt md res :
  keeps isReceived (biReply rt md res).
Proof.
  unfold biReply. apply keeps_bind; [|eauto 10 with trace].
  intros c. cbv beta. destruct (headerSent c); [done|].
  apply (keeps_forPairs isReceived rt (rangeMD rt (res_Headers res))
           (λ p, perform rt (SendHeader p);; latch)).
  eauto with trace.
Qed.

#[local] Hint Resolve keepsReceived_unaryReply keepsReceived_serverReply
  keepsReceived_clientReply keepsReceived_biReply : trace.

(** Calling the selected matcher's handler and replying receives nothing,
    and does not wait. *)
Lemma respond_received {A} (reply : Response → io A) m r md c :
  (∀ res, keeps isReceived (reply res)) →
  receipts (trace (respond reply m r md c).1) = receipts (trace c).
Proof.
  intros H. unfold respond. destruct (invoke m r md) as [res|]; [|done].
  specialize (H res c). by destruct (reply res c).
Qed.

Lemma respond_not_blocked {A} (reply : Response → io A) m r md c :
  (respond reply m r md c).2 ≠ Blocked.
Proof.
  unfold respond. destruct (invoke m r md) as [res|]; [|done].
  by destruct (reply res c).
Qed.

Lemma unaryMatch_received rt md r ms c :
  receipts (trace (unaryMatch rt md r ms c).1.2) = receipts (trace c)
  ∧ (unaryMatch rt md r ms c).2 ≠ Blocked.
Proof.
  rewrite unaryMatch_firstMatch. destruct (firstMatch ms r) as [[i m]|]; [|done].
  pose proof (respond_received (unaryReply rt md) m r md c
                (keepsReceived_unaryReply rt md)) as H.
  pose proof (respond_not_blocked (unaryReply rt md) m r md c) as Hnb.
  by destruct (respond (unaryReply rt md) m r md c).
Qed.

Lemma serverMatch_received rt md r ms c :
  receipts (trace (serverMatch rt md r ms c).1.2) = receipts (trace c)
  ∧ (serverMatch rt md r ms c).2 ≠ Blocked.
Proof.
  revert c. induction ms as [|m ms IH]; intros c; [done|]. simpl.
  destruct (evaluate m r).
  - destruct (invoke m r md) as [res|]; [|done].
    pose proof (keepsReceived_serverReply rt md res c) as H.
    destruct (serverReply rt md res c) as [c' [e|u]]; [done|].
    specialize (IH c'). destruct (serverMatch rt md r ms c') as [[ms' c''] o].
    unfold receipts in *. cbn [fst snd] in *. destruct IH as [IH1 IH2].
    split; [congruence|done].
  - specialize (IH c). by destruct (serverMatch rt md r ms c) as [[ms' c'] o].
Qed.

Lemma biMatch_firstMatch rt md r ms c :
  biMatch rt md r ms c
  = match firstMatch ms r with
    | Some (i, m) =>
        let '(c', o) := respond (biReply rt md) m r md c in
        (alter (logRequest r) i ms, c', o)
    | None => (ms, c, Returned (inl notFound))
    end.
Proof.
  induction ms as [|m ms IH]; [done|].
  rewrite firstMatch_cons. cbn [biMatch]. destruct (evaluate m r).
  - unfold respond. simpl. destruct (invoke m r md); [|done].
    by destruct (biReply rt md _ c).
  - rewrite IH. destruct (firstMatch ms r) as [[i m']|]; simpl; [|done].
    by destruct (respond (biReply rt md) m' r md c).
Qed.

Lemma clientMatch_firstMatch rt md r ms c :
  clientMatch rt md r ms c
  = match firstMatch ms r with
    | Some (i, m) =>
        let '(c', o) := respond (clientReply rt md) m r md c in
        Some (alter (logRequest r) i ms, c', o)
    | None => None
    end.
Proof.
  induction ms as [|m ms IH]; [done|].
  rewrite firstMatch_cons. cbn [clientMatch]. destruct (evaluate m r).
  - unfold respond. simpl. destruct (invoke m r md); [|done].
    by destruct (clientReply rt md _ c).
  - rewrite IH. destruct (firstMatch ms r) as [[i m']|]; simpl; [|done].
    by destruct (respond (clientReply rt md) m' r md c).
Qed.

Lemma biMatch_received rt md r ms c :
  receipts (trace (biMatch rt md r ms c).1.2) = receipts (trace c)
  ∧ (biMatch rt md r ms c).2 ≠ Blocked.
Proof.
  rewrite biMatch_firstMatch. destruct (firstMatch ms r) as [[i m]|]; [|done].
  pose proof (respond_received (biReply rt md) m r md c
                (keepsReceived_biReply rt md)) as H.
  pose proof (respond_not_blocked (biReply rt md) m r md c) as Hnb.
  by destruct (respond (biReply rt md) m r md c).
Qed.

Lemma clientScan_received rt md rs ms c :
  receipts (trace (clientScan rt md rs ms c).1.2) = receipts (trace c)
  ∧ (clientScan rt md rs ms c).2 ≠ Blocked.
Proof.
  induction rs as [|r rs IH]; [done|]. simpl.
  rewrite clientMatch_firstMatch. destruct (firstMatch ms r) as [[i m]|]; [|done].
  pose proof (respond_received (clientReply rt md) m r md c
                (keepsReceived_clientReply rt md)) as H.
  pose proof (respond_not_blocked (clientReply rt md) m r md c) as Hnb.
  by destruct (respond (clientReply rt md) m r md c).
Qed.

Lemma receipts_receive x c :
  receipts (trace (receive x c)) = receipts (trace c) ++ [x].
Proof. unfold receive, receipts. simpl. by rewrite omap_app. Qed.

(** The receive loops, from any state they may be in: [n] items are taken,
    and the documents among them recorded. *)
Lemma clientLoop_receipts rt md ctx inbox rs s c :
  let x := clientLoop rt md ctx inbox rs s c in
  ∃ n,
    receipts (trace (finalCall x)) = receipts (trace c) ++ take n inbox
    ∧ requests (finalServer x)
      = requests s ++ (buildRequest md ctx <$> docsOf (take n inbox))
    ∧ (finalOutcome x = Blocked → n = length inbox)
    ∧ (finalOutcome x ≠ Blocked → 0 < n ≤ length inbox).
Proof.
  cbv zeta. revert rs s c. induction inbox as [|x inbox IH]; intros rs s c.
  - exists 0. simpl. rewrite !app_nil_r. repeat split; done.
  - cbn [clientLoop].
    assert (∀ rs' s' (Hs : requests s'
                           = requests s ++ (buildRequest md ctx <$> docsOf [x])),
      let y := clientLoop rt md ctx inbox rs' s' (receive x c) in
      ∃ n,
        receipts (trace (finalCall y)) = receipts (trace c) ++ take n (x :: inbox)
        ∧ requests (finalServer y)
          = requests s ++ (buildRequest md ctx <$> docsOf (take n (x :: inbox)))
        ∧ (finalOutcome y = Blocked → n = length (x :: inbox))
        ∧ (finalOutcome y ≠ Blocked → 0 < n ≤ length (x :: inbox))) as Hstep.
    { intros rs' s' Hs. cbv zeta.
      destruct (IH rs' s' (receive x c)) as (n & H1 & H2 & H3 & H4).
      exists (S n). rewrite H1, H2, Hs, receipts_receive.
      change (take (S n) (x :: inbox)) with ([x] ++ take n inbox).
      unfold docsOf. rewrite omap_app, fmap_app, <- !app_assoc.
      split; [reflexivity|]. split; [reflexivity|]. split.
      - intros Hb. by rewrite (H3 Hb).
      - intros Hb. specialize (H4 Hb). simpl. lia. }
    assert (∀ (y : Server * call * outcome (error + unit)),
      receipts (trace (finalCall y)) = receipts (trace c) ++ [x] →
      requests (finalServer y) = requests s →
      docsOf [x] = [] →
      finalOutcome y ≠ Blocked →
      ∃ n,
        receipts (trace (finalCall y)) = receipts (trace c) ++ take n (x :: inbox)
        ∧ requests (finalServer y)
          = requests s ++ (buildRequest md ctx <$> docsOf (take n (x :: inbox)))
        ∧ (finalOutcome y = Blocked → n = length (x :: inbox))
        ∧ (finalOutcome y ≠ Blocked → 0 < n ≤ length (x :: inbox))) as Hstop.
    { intros y H1 H2 Hx Hnb. exists 1.
      change (take 1 (x :: inbox)) with [x]. rewrite H1, H2, Hx, app_nil_r.
      split; [done|]. split; [done|]. split; [done|]. simpl. lia. }
    destruct x as [e|e|doc].
    + destruct e.
      * pose proof (clientScan_received rt md rs (matchers s)
                      (receive (RecvErr EOF) c)) as [H Hnb].
        destruct (clientScan rt md rs (matchers s) _) as [[ms c'] o].
        apply Hstop; unfold finalCall, finalServer, finalOutcome;
          cbn [fst snd] in *; [|done..].
        by rewrite H, receipts_receive.
      * apply Hstep. simpl. by rewrite app_nil_r.
      * apply Hstep. simpl. by rewrite app_nil_r.
    + apply Hstop; unfold finalCall, finalServer, finalOutcome; cbn [fst snd];
        [by rewrite receipts_receive|done..].
    + by apply Hstep.
Qed.

Lemma biLoop_receipts rt md ctx inbox s c :
  let x := biLoop rt md ctx inbox s c in
  ∃ n,
    receipts (trace (finalCall x)) = receipts (trace c) ++ take n inbox
    ∧ requests (finalServer x)
      = requests s ++ (buildRequest md ctx <$> docsOf (take n inbox))
    ∧ (finalOutcome x = Blocked → n = length inbox)
    ∧ (finalOutcome x ≠ Blocked → 0 < n ≤ length inbox).
Proof.
  cbv zeta. revert s c. induction inbox as [|x inbox IH]; intros s c.
  - exists 0. simpl. rewrite !app_nil_r. repeat split; done.
  - cbn [biLoop].
    assert (∀ (y : Server * call * outcome (error + unit)),
      receipts (trace (finalCall y)) = receipts (trace c) ++ [x] →
      requests (finalServer y)
        = requests s ++ (buildRequest md ctx <$> docsOf [x]) →
      finalOutcome y ≠ Blocked →
      ∃ n,
        receipts (trace (finalCall y)) = receipts (trace c) ++ take n (x :: inbox)
        ∧ requests (finalServer y)
          = requests s ++ (buildRequest md ctx <$> docsOf (take n (x :: inbox)))
        ∧ (finalOutcome y = Blocked → n = length (x :: inbox))
        ∧ (finalOutcome y ≠ Blocked → 0 < n ≤ length (x :: inbox))) as Hstop.
    { intros y H1 H2 Hnb. exists 1.
      change (take 1 (x :: inbox)) with [x]. rewrite H1, H2.
      split; [done|]. split; [done|]. split; [done|]. simpl. lia. }
    destruct x as [e|e|doc].
    + destruct e; apply Hstop; unfold finalCall, finalServer, finalOutcome;
        cbn [fst snd]; rewrite ?receipts_receive; simpl; by rewrite ?app_nil_r.
    + apply Hstop; unfold finalCall, finalServer, finalOutcome;
        cbn [fst snd]; rewrite ?receipts_receive; simpl; by rewrite ?app_nil_r.
    + set (r := buildRequest md ctx doc).
      pose proof (biMatch_received rt md r (matchers (record r s))
                    (receive (RecvDoc doc) c)) as [Hm Hnb].
      destruct (biMatch rt md r (matchers (record r s)) _) as [[ms c'] o].
      cbn [fst snd] in Hm, Hnb. rewrite receipts_receive in Hm.
      assert (∀ o' : outcome (error + unit), o' ≠ Blocked →
        ∃ n,
          receipts (trace (finalCall (setMatchers ms (record r s), c', o')))
            = receipts (trace c) ++ take n (RecvDoc doc :: inbox)
          ∧ requests (finalServer (setMatchers ms (record r s), c', o'))
            = requests s
              ++ (buildRequest md ctx <$> docsOf (take n (RecvDoc doc :: inbox)))
          ∧ (finalOutcome (setMatchers ms (record r s), c', o') = Blocked
             → n = length (RecvDoc doc :: inbox))
          ∧ (finalOutcome (setMatchers ms (record r s), c', o') ≠ Blocked
             → 0 < n ≤ length (RecvDoc doc :: inbox))) as Hend.
      { intros o' Ho'. by apply Hstop. }
      destruct o as [[e|u]| |]; [by apply Hend| |by apply Hend|done].
      destruct (IH (setMatchers ms (record r s)) c') as (n & H1 & H2 & H3 & H4).
      exists (S n). rewrite H1, H2, Hm.
      change (take (S n) (RecvDoc doc :: inbox))
        with ([RecvDoc doc] ++ take n inbox).
      unfold docsOf. rewrite omap_app, fmap_app.
      cbn [requests setMatchers record]. rewrite <- !app_assoc.
      split; [reflexivity|]. split; [reflexivity|]. split.
      * intros Hb. by rewrite (H3 Hb).
      * intros Hb. specialize (H4 Hb). simpl. lia.
Qed.

(** C2. In each of the four call shapes the call receives the items of its
    input one after the other, as far as it goes, and the global log grows
    by exactly the requests built from the documents among them: one entry
    for each, in the order of receipt, whether the handler then found no
    matcher, one or several, returned an error or panicked.  The input may
    stop anywhere: a call that waits for its next message has recorded all
    it was given, also the client-streaming call, which matches none of
    them before the end of input.  The two receive loops do so from every
    state in which they may be resumed, whatever other calls have added to
    the log meanwhile. *)
Theorem global_log_records_receipts (rt : Runtime) (md : MethodDescriptor)
    (s : Server) (ctx : option MD) :
  (∀ dec,
     recordsReceipts md ctx s newCall [dec]
       (createUnaryHandler rt md s ctx dec))
  ∧ (∀ inbox,
       recordsReceipts md ctx s newCall (take 1 inbox)
         (createServerStreamingHandler rt md s ctx inbox))
  ∧ (∀ inbox,
       recordsReceipts md ctx s newCall inbox
         (createClientStreamingHandler rt md s ctx inbox))
  ∧ (∀ inbox,
       recordsReceipts md ctx s newCall inbox
         (createBiStreamingHandler rt md s ctx inbox))
  ∧ (∀ inbox rs c,
       recordsReceipts md ctx s c inbox (clientLoop rt md ctx inbox rs s c))
  ∧ (∀ inbox c,
       recordsReceipts md ctx s c inbox (biLoop rt md ctx inbox s c)).
Proof.
  assert (∀ A (x : recv) (y : Server * call * outcome A),
    receipts (trace (finalCall y)) = [x] →
    requests (finalServer y)
      = requests s ++ (buildRequest md ctx <$> docsOf [x]) →
    finalOutcome y ≠ Blocked →
    recordsReceipts md ctx s newCall [x] y) as Hone.
  { intros A x y H1 H2 Hnb. exists 1.
    split; [done|]. split; [done|]. split; [done|]. simpl. lia. }
  repeat apply conj.
  - intros dec. unfold createUnaryHandler.
    destruct dec as [e|e|doc]; cbv zeta;
      [apply Hone; simpl; by rewrite ?app_nil_r..|].
    set (r := buildRequest md ctx doc).
    pose proof (unaryMatch_received rt md r (matchers (record r s))
                  (receive (RecvDoc doc) newCall)) as [H Hnb].
    destruct (unaryMatch rt md r _ _) as [[ms c] o].
    apply Hone; unfold finalServer, finalCall, finalOutcome; simpl in *; done.
  - intros inbox. unfold createServerStreamingHandler.
    destruct inbox as [|[e|e|doc] inbox]; cbv zeta.
    + exists 0. simpl. rewrite app_nil_r. repeat split; done.
    + apply Hone; simpl; by rewrite ?app_nil_r.
    + apply Hone; simpl; by rewrite ?app_nil_r.
    + set (r := buildRequest md ctx doc).
      pose proof (serverMatch_received rt md r (matchers (record r s))
                    (receive (RecvDoc doc) newCall)) as [H Hnb].
      destruct (serverMatch rt md r _ _) as [[ms c] o].
      apply Hone; unfold finalServer, finalCall, finalOutcome; simpl in *; done.
  - intros inbox. unfold createClientStreamingHandler.
    apply (clientLoop_receipts rt md ctx inbox [] s newCall).
  - intros inbox. unfold createBiStreamingHandler.
    apply (biLoop_receipts rt md ctx inbox s newCall).
  - intros inbox rs c. apply (clientLoop_receipts rt md ctx inbox rs s c).
  - intros inbox c. apply (biLoop_receipts rt md ctx inbox s c).
Qed.

(** Three messages of a bidirectional call of which the second matches no
    matcher: the call ends there, with two entries in the log. *)
Example global_log_bidi :
  let x := createBiStreamingHandler plainRuntime routeChat chatServer None
             [RecvDoc hello; RecvDoc ∅; RecvDoc hello] in
  receipts (trace (finalCall x)) = [RecvDoc hello; RecvDoc ∅]
  ∧ requests (finalServer x)
    = [newRequest routeChat hello; newRequest routeChat ∅]
  ∧ finalOutcome x = Returned (inl notFound).
Proof. repeat split; reflexivity. Qed.

(** ** The matchers' logs *)

Lemma logGrows_refl new m : logGrows new m m.
Proof.
  repeat split. exists []. rewrite app_nil_r.
  repeat split; [constructor|apply sublist_nil_l].
Qed.

Lemma logGrows_logRequest new r m :
  passes m r → r ∈ new → logGrows new m (logRequest r m).
Proof.
  intros Hp Hr. repeat split. exists [r]. repeat split.
  - by apply Forall_singleton.
  - apply list_elem_of_split in Hr as (l1 & l2 & ->).
    apply sublist_inserts_l. by apply sublist_skip, sublist_nil_l.
Qed.

Lemma logGrows_weaken new new' m m' :
  new `sublist_of` new' → logGrows new m m' → logGrows new' m m'.
Proof.
  intros Hsub (Hf & Hh & added & Ha & Hp & Hs).
  repeat split; [done..|]. exists added. repeat split; [done..|].
  by etrans.
Qed.

Lemma logGrows_trans new1 new2 m m' m'' :
  logGrows new1 m m' → logGrows new2 m' m'' → logGrows (new1 ++ new2) m m''.
Proof.
  intros (Hf & Hh & a1 & Ha1 & Hp1 & Hs1) (Hf' & Hh' & a2 & Ha2 & Hp2 & Hs2).
  repeat split; [congruence..|]. exists (a1 ++ a2). repeat split.
  - by rewrite Ha2, Ha1, app_assoc.
  - apply Forall_app. split; [done|].
    unfold passes in *. by rewrite <- Hf.
  - by apply sublist_app.
Qed.

Lemma Forall2_logGrows_refl new ms : Forall2 (logGrows new) ms ms.
Proof. apply Forall_Forall2_diag, Forall_forall. intros. apply logGrows_refl. Qed.

Lemma Forall2_logGrows_trans new1 new2 ms ms' ms'' :
  Forall2 (logGrows new1) ms ms' → Forall2 (logGrows new2) ms' ms'' →
  Forall2 (logGrows (new1 ++ new2)) ms ms''.
Proof.
  intros H. revert ms''. induction H as [|m m' ms ms' Hm H IH]; intros ms'' H'.
  - by inversion H'.
  - inversion H' as [|? m'' ? ms3 Hm' H'']; subst. constructor.
    + by eapply logGrows_trans.
    + by apply IH.
Qed.

Lemma Forall2_logGrows_weaken new new' ms ms' :
  new `sublist_of` new' →
  Forall2 (logGrows new) ms ms' → Forall2 (logGrows new') ms ms'.
Proof.
  intros Hsub H. eapply Forall2_impl; [exact H|].
  intros m m'. by apply logGrows_weaken.
Qed.

(** Logging the request at the position [firstMatch] found. *)
Lemma Forall2_logGrows_alter new r ms i m :
  firstMatch ms r = Some (i, m) → r ∈ new →
  Forall2 (logGrows new) ms (alter (logRequest r) i ms).
Proof.
  intros Hsel Hr. apply firstMatch_Some in Hsel as (Hi & Hp & _).
  revert i Hi. induction ms as [|m0 ms IH]; intros [|i] Hi; try done.
  - simpl in *. injection Hi as ->. constructor.
    + by apply logGrows_logRequest.
    + apply Forall2_logGrows_refl.
  - simpl in *. constructor; [apply logGrows_refl|by apply IH].
Qed.

Lemma unaryMatch_logs rt md r ms c :
  Forall2 (logGrows [r]) ms (unaryMatch rt md r ms c).1.1.
Proof.
  rewrite unaryMatch_firstMatch.
  destruct (firstMatch ms r) as [[i m]|] eqn:E.
  - destruct (respond (unaryReply rt md) m r md c). simpl.
    eapply Forall2_logGrows_alter; [done|]. by apply list_elem_of_singleton.
  - apply Forall2_logGrows_refl.
Qed.

Lemma biMatch_logs rt md r ms c :
  Forall2 (logGrows [r]) ms (biMatch rt md r ms c).1.1.
Proof.
  rewrite biMatch_firstMatch.
  destruct (firstMatch ms r) as [[i m]|] eqn:E.
  - destruct (respond (biReply rt md) m r md c). simpl.
    eapply Forall2_logGrows_alter; [done|]. by apply list_elem_of_singleton.
  - apply Forall2_logGrows_refl.
Qed.

(** Server streaming logs the request with every matcher that fires. *)
Lemma serverMatch_logs rt md r ms c :
  Forall2 (logGrows [r]) ms (serverMatch rt md r ms c).1.1.
Proof.
  revert c. induction ms as [|m ms IH]; intros c; [constructor|].
  cbn [serverMatch]. destruct (evaluate m r) eqn:E.
  - apply evaluate_passes in E.
    assert (logGrows [r] m (logRequest r m)) as Hm.
    { apply logGrows_logRequest; [done|]. by apply list_elem_of_singleton. }
    destruct (invoke m r md) as [res|].
    + destruct (serverReply rt md res c) as [c' [e|u]].
      * constructor; [done|apply Forall2_logGrows_refl].
      * specialize (IH c'). destruct (serverMatch rt md r ms c') as [[ms' c''] o].
        by constructor.
    + constructor; [done|apply Forall2_logGrows_refl].
  - specialize (IH c). destruct (serverMatch rt md r ms c) as [[ms' c'] o].
    constructor; [apply logGrows_refl|done].
Qed.

Lemma clientScan_logs rt md rs ms c :
  Forall2 (logGrows rs) ms (clientScan rt md rs ms c).1.1.
Proof.
  induction rs as [|r rs IH]; [apply Forall2_logGrows_refl|].
  cbn [clientScan]. rewrite clientMatch_firstMatch.
  destruct (firstMatch ms r) as [[i m]|] eqn:E.
  - destruct (respond (clientReply rt md) m r md c). simpl.
    eapply Forall2_logGrows_alter; [done|]. apply list_elem_of_here.
  - eapply Forall2_logGrows_weaken; [|exact IH]. by apply sublist_cons.
Qed.

Lemma clientLoop_logs rt md ctx inbox rs s c :
  ∃ new,
    requests (finalServer (clientLoop rt md ctx inbox rs s c))
      = requests s ++ new
    ∧ Forall2 (logGrows (rs ++ new)) (matchers s)
        (matchers (finalServer (clientLoop rt md ctx inbox rs s c))).
Proof.
  revert rs s c. induction inbox as [|x inbox IH]; intros rs s c.
  - exists []. split; [by rewrite app_nil_r|apply Forall2_logGrows_refl].
  - cbn [clientLoop]. destruct x as [e|e|doc].
    + destruct e; [|apply IH..].
      exists []. pose proof (clientScan_logs rt md rs (matchers s)
                               (receive (RecvErr EOF) c)) as H.
      destruct (clientScan rt md rs (matchers s) _) as [[ms c'] o].
      unfold finalServer. simpl in *. by rewrite !app_nil_r.
    + exists []. split; [by rewrite app_nil_r|apply Forall2_logGrows_refl].
    + set (r := buildRequest md ctx doc).
      destruct (IH (rs ++ [r]) (record r s) (receive (RecvDoc doc) c))
        as (new & H1 & H2).
      exists (r :: new). split.
      * rewrite H1. simpl. by rewrite <- app_assoc.
      * simpl in H2. by rewrite <- app_assoc in H2.
Qed.

Lemma biLoop_logs rt md ctx inbox s c :
  logsGrow s (finalServer (biLoop rt md ctx inbox s c)).
Proof.
  revert s c. induction inbox as [|x inbox IH]; intros s c.
  - exists []. split; [by rewrite app_nil_r|apply Forall2_logGrows_refl].
  - cbn [biLoop]. destruct x as [e|e|doc].
    + exists []. destruct e;
        (split; [by rewrite app_nil_r|apply Forall2_logGrows_refl]).
    + exists []. split; [by rewrite app_nil_r|apply Forall2_logGrows_refl].
    + set (r := buildRequest md ctx doc).
      pose proof (biMatch_logs rt md r (matchers (record r s))
                    (receive (RecvDoc doc) c)) as Hm.
      destruct (biMatch rt md r (matchers (record r s)) _) as [[ms c'] o].
      simpl in Hm.
      assert (logsGrow s (setMatchers ms (record r s))) as Hstop.
      { by exists [r]. }
      destruct o as [[e|u]| |]; [done| |done|done].
      destruct (IH (setMatchers ms (record r s)) c') as (new & H1 & H2).
      exists ([r] ++ new). split.
      * rewrite H1. simpl. by rewrite <- app_assoc.
      * by eapply Forall2_logGrows_trans.
Qed.

Lemma soundLogs_grow s s' : soundLogs s → logsGrow s s' → soundLogs s'.
Proof.
  unfold soundLogs. intros Hs (new & Hreq & Hgrow). rewrite Hreq. clear Hreq.
  induction Hgrow as [|m m' ms ms' Hm _ IH]; [constructor|].
  inversion Hs as [|? ? [Hp Hsub] Hs']; subst. constructor; [|by apply IH].
  destruct Hm as (Hf & _ & added & -> & Hadded & Hnew). split.
  - apply Forall_app. unfold passes in *. rewrite Hf. by split.
  - by apply sublist_app.
Qed.

Lemma soundLogs_faithful s : soundLogs s → faithfulLogs s.
Proof.
  unfold soundLogs, faithfulLogs. intros H. eapply Forall_impl; [exact H|].
  clear H. intros m [Hp Hsub].
  rewrite Forall_forall in *. intros r Hr. split; [by apply Hp|].
  eapply elem_of_sublist; [done|exact Hsub].
Qed.

(** Logs that grow by requests of a pool that is in the global log stay
    faithful, whatever the order. *)
Lemma faithfulLogs_grow pool s s' new :
  faithfulLogs s →
  requests s' = requests s ++ new →
  Forall (λ r, r ∈ requests s') pool →
  Forall2 (logGrows pool) (matchers s) (matchers s') →
  faithfulLogs s'.
Proof.
  unfold faithfulLogs. intros Hs Hreq Hpool Hgrow.
  induction Hgrow as [|m m' ms ms' Hm _ IH]; [constructor|].
  inversion Hs as [|? ? Hold Hs']; subst. constructor; [|by apply IH].
  destruct Hm as (Hf & _ & added & -> & Hadded & Hsub).
  apply Forall_app. unfold passes in *. rewrite Hf. split.
  - eapply Forall_impl; [exact Hold|]. intros r [Hp Hr]. split; [done|].
    rewrite Hreq. apply elem_of_app. by left.
  - rewrite Forall_forall in *. intros r Hr. split; [by apply Hadded|].
    apply Hpool. eapply elem_of_sublist; [done|exact Hsub].
Qed.

(** C7, as the code has it.  In every call shape, and from every state in
    which a receive loop may be resumed after other calls were served, a
    call extends a matcher's log only by requests on which all the
    matcher's predicates returned true and which are in the global log.
    When the calls are served one after the other, each from its start with
    no other call in between, a call extends the logs in the order in which
    it added the requests to the global log, so that every matcher's log is
    in receipt order. *)
Theorem matcher_logs_sound (rt : Runtime) (md : MethodDescriptor) (s : Server)
    (ctx : option MD) :
  (faithfulLogs s →
   (∀ dec, faithfulLogs (finalServer (createUnaryHandler rt md s ctx dec)))
   ∧ (∀ inbox,
        faithfulLogs (finalServer (createServerStreamingHandler rt md s ctx inbox)))
   ∧ (∀ inbox rs c,
        Forall (λ r, r ∈ requests s) rs →
        faithfulLogs (finalServer (clientLoop rt md ctx inbox rs s c)))
   ∧ (∀ inbox c, faithfulLogs (finalServer (biLoop rt md ctx inbox s c))))
  ∧ (soundLogs s →
     (∀ dec,
        let s' := finalServer (createUnaryHandler rt md s ctx dec) in
        logsGrow s s' ∧ soundLogs s')
     ∧ (∀ inbox,
          let s' := finalServer (createServerStreamingHandler rt md s ctx inbox) in
          logsGrow s s' ∧ soundLogs s')
     ∧ (∀ inbox,
          let s' := finalServer (createClientStreamingHandler rt md s ctx inbox) in
          logsGrow s s' ∧ soundLogs s')
     ∧ (∀ inbox,
          let s' := finalServer (createBiStreamingHandler rt md s ctx inbox) in
          logsGrow s s' ∧ soundLogs s')).
Proof.
  assert (∀ dec, logsGrow s (finalServer (createUnaryHandler rt md s ctx dec)))
    as Hunary.
  { intros x. unfold createUnaryHandler. destruct x as [e|e|doc]; cbv zeta;
      [exists []; split; [by rewrite app_nil_r|apply Forall2_logGrows_refl]..|].
    set (r := buildRequest md ctx doc).
    pose proof (unaryMatch_logs rt md r (matchers (record r s))
                  (receive (RecvDoc doc) newCall)) as H.
    destruct (unaryMatch rt md r _ _) as [[ms c] o]. by exists [r]. }
  assert (∀ inbox,
    logsGrow s (finalServer (createServerStreamingHandler rt md s ctx inbox)))
    as Hserver.
  { intros x. unfold createServerStreamingHandler.
    destruct x as [|[e|e|doc] inbox]; cbv zeta;
      [exists []; split; [by rewrite app_nil_r|apply Forall2_logGrows_refl]..|].
    set (r := buildRequest md ctx doc).
    pose proof (serverMatch_logs rt md r (matchers (record r s))
                  (receive (RecvDoc doc) newCall)) as H.
    destruct (serverMatch rt md r _ _) as [[ms c] o]. by exists [r]. }
  assert (∀ s', logsGrow s s' → faithfulLogs s → faithfulLogs s') as Hfaith.
  { intros s' (new & Hreq & Hgrow) Hs.
    apply (faithfulLogs_grow new s s' new); [done..| |done].
    rewrite Forall_forall. intros r Hr. rewrite Hreq. apply elem_of_app.
    by right. }
  split.
  - intros Hs. repeat apply conj.
    + intros dec. by apply Hfaith.
    + intros inbox. by apply Hfaith.
    + intros inbox rs c Hrs.
      destruct (clientLoop_logs rt md ctx inbox rs s c) as (new & H1 & H2).
      apply (faithfulLogs_grow (rs ++ new) s _ new); [done..| |done].
      apply Forall_app. rewrite H1. split.
      * eapply Forall_impl; [exact Hrs|]. intros r Hr. apply elem_of_app.
        by left.
      * rewrite Forall_forall. intros r Hr. apply elem_of_app. by right.
    + intros inbox c. apply Hfaith; [|done]. apply biLoop_logs.
  - intros Hs.
    assert (∀ s', logsGrow s s' → logsGrow s s' ∧ soundLogs s') as Hboth.
    { intros s' H. split; [done|by eapply soundLogs_grow]. }
    repeat apply conj; intros x; cbv zeta; apply Hboth.
    + apply Hunary.
    + apply Hserver.
    + unfold createClientStreamingHandler.
      destruct (clientLoop_logs rt md ctx x [] s newCall) as (new & H1 & H2).
      by exists new.
    + apply biLoop_logs.
Qed.

Lemma matcher_logs_sound_witness :
  soundLogs featureServer
  ∧ soundLogs
      (finalServer
         (createUnaryHandler plainRuntime getFeature featureServer None
            (RecvDoc ∅)))
  ∧ (m_requests <$> matchers
       (finalServer
          (createUnaryHandler plainRuntime getFeature featureServer None
             (RecvDoc ∅))))
    = [[newRequest getFeature ∅]].
Proof.
  assert (soundLogs featureServer) as Hs.
  { repeat constructor. }
  split; [exact Hs|]. split; [|reflexivity].
  destruct (matcher_logs_sound plainRuntime getFeature featureServer None)
    as (_ & Hseq).
  destruct (Hseq Hs) as (Hu & _).
  apply (Hu (RecvDoc ∅)).
Defined.

(** A unary call served while a client-streaming call waits: the global log
    has the request of the client-streaming call first, the matcher's log
    has it last. *)
Example overlap_logs :
  let a := createClientStreamingHandler plainRuntime recordRoute anyServer
             None [RecvDoc ∅] in
  let b := createUnaryHandler plainRuntime getFeature (finalServer a) None
             (RecvDoc ∅) in
  let a' := clientLoop plainRuntime recordRoute None [RecvErr EOF]
              [newRequest recordRoute ∅] (finalServer b) (finalCall a) in
  (req_Method <$> requests (finalServer a')) = ["RecordRoute"; "GetFeature"]
  ∧ (fmap req_Method ∘ m_requests <$> matchers (finalServer a'))
    = [["GetFeature"; "RecordRoute"]].
Proof. split; reflexivity. Qed.

Lemma overlapKeepsOrder_counterexample :
  ¬ overlapKeepsOrder plainRuntime recordRoute getFeature anyServer None ∅ ∅.
Proof.
  intros H.
  assert (soundLogs anyServer) as Hs by repeat constructor.
  specialize (H Hs). unfold soundLogs in H.
  apply Forall_inv in H as [_ Hsub].
  apply (fmap_sublist req_Method) in Hsub.
  change (["GetFeature"; "RecordRoute"]
            `sublist_of` ["RecordRoute"; "GetFeature"]) in Hsub.
  inversion Hsub as [| |? ? ? Hsub1]; subst.
  inversion Hsub1 as [|? ? ? Hsub2|? ? ? Hsub2]; subst; inversion Hsub2.
Qed.

(** Setting a server up keeps the logs sound: a new server has no matcher,
    a registered matcher has an empty log, and the decorators and [Handler]
    touch neither predicates nor log. *)
Lemma soundLogs_NewServer net tls ca : soundLogs (NewServer net tls ca).
Proof. unfold NewServer, startServer. by destruct (Listen net); constructor. Qed.

Lemma soundLogs_register fn s : soundLogs s → soundLogs (register fn s).
Proof.
  unfold soundLogs, register. simpl. intros H. apply Forall_app. split; [done|].
  constructor; [|constructor]. split; [constructor|apply sublist_nil_l].
Qed.

Lemma soundLogs_setHandler i h s :
  soundLogs s → soundLogs (chain i (setHandler h) s).
Proof.
  unfold soundLogs, chain. simpl. intros H.
  apply Forall_alter; [done|]. by intros m _ [Hp Hsub].
Qed.

Lemma soundLogs_decorate i mutation s :
  soundLogs s → soundLogs (chain i (decorate mutation) s).
Proof.
  unfold soundLogs, chain. simpl. intros H.
  apply Forall_alter; [done|]. by intros m _ [Hp Hsub].
Qed.

(** A predicate added to a matcher keeps the logs sound when the matcher's
    log is still empty, or holds only requests on which the new predicate is
    true too. *)
Lemma soundLogs_Match i fn s :
  soundLogs s →
  (∀ m, matchers s !! i = Some m → Forall (λ r, fn r = true) (m_requests m)) →
  soundLogs (chain i (matcher_Match fn) s).
Proof.
  unfold soundLogs, chain. simpl. intros H Hfn.
  apply Forall_alter; [done|]. intros m Hm [Hp Hsub]. split; [|done].
  simpl. specialize (Hfn m Hm). rewrite Forall_forall in *.
  intros r Hr. unfold passes. simpl. apply Forall_app. split.
  - by apply Hp.
  - apply Forall_singleton. by apply Hfn.
Qed.

(** ** Bidirectional streaming *)

Lemma biMatch_not_blocked rt md r ms c : (biMatch rt md r ms c).2 ≠ Blocked.
Proof.
  rewrite biMatch_firstMatch. destruct (firstMatch ms r) as [[i m]|]; [|done].
  unfold respond. destruct (invoke m r md) as [res|]; [|done].
  by destruct (biReply rt md res c).
Qed.

(** The receive loop picks up where it was blocked. *)
Lemma biLoop_app rt md ctx inbox1 inbox2 s c s' c' :
  biLoop rt md ctx inbox1 s c = (s', c', Blocked) →
  biLoop rt md ctx (inbox1 ++ inbox2) s c = biLoop rt md ctx inbox2 s' c'.
Proof.
  revert s c. induction inbox1 as [|x inbox1 IH]; intros s c.
  - simpl. by intros [= -> ->].
  - cbn [biLoop app]. destruct x as [e|e|doc]; [by destruct e|done|].
    pose proof (biMatch_not_blocked rt md (buildRequest md ctx doc)
                  (matchers (record (buildRequest md ctx doc) s))
                  (receive (RecvDoc doc) c)) as Hnb.
    destruct (biMatch rt md _ _ _) as [[ms c1] o].
    destruct o as [[e|u]| |]; [done|apply IH|done..].
Qed.

(** C8. A bidirectional call that has handled what it received so far and
    waits for more: on end of input it returns nil, the stream closes
    normally; on a message that no matcher passes it records the request in
    the global log and returns not-found at once, sending nothing. *)
Theorem bidi_eof_and_not_found (rt : Runtime) (md : MethodDescriptor)
    (s : Server) (ctx : option MD) (pre : list recv) (s' : Server) (c' : call) :
  createBiStreamingHandler rt md s ctx pre = (s', c', Blocked) →
  (∀ rest,
     createBiStreamingHandler rt md s ctx (pre ++ RecvErr EOF :: rest)
     = (s', receive (RecvErr EOF) c', Returned (inr ())))
  ∧ (∀ doc rest,
       let r := buildRequest md ctx doc in
       Forall (λ m, ¬ passes m r) (matchers s') →
       createBiStreamingHandler rt md s ctx (pre ++ RecvDoc doc :: rest)
       = (record r s', receive (RecvDoc doc) c', Returned (inl notFound))).
Proof.
  unfold createBiStreamingHandler. intros Hpre. split.
  - intros rest. by rewrite (biLoop_app _ _ _ _ _ _ _ _ _ Hpre).
  - intros doc rest Hnone. set (r := buildRequest md ctx doc) in *.
    rewrite (biLoop_app _ _ _ _ _ _ _ _ _ Hpre).
    cbn [biLoop]. fold r. rewrite biMatch_firstMatch.
    assert (firstMatch (matchers (record r s')) r = None) as ->.
    { unfold firstMatch. by apply list_find_None. }
    by destruct s'.
Qed.

Lemma bidi_eof_and_not_found_witness :
  finalOutcome
    (createBiStreamingHandler plainRuntime routeChat chatServer None
       [RecvDoc hello])
  = Blocked
  ∧ finalOutcome
      (createBiStreamingHandler plainRuntime routeChat chatServer None
         [RecvDoc hello; RecvErr EOF])
    = Returned (inr ())
  ∧ finalOutcome
      (createBiStreamingHandler plainRuntime routeChat chatServer None
         [RecvDoc hello; RecvDoc ∅; RecvDoc hello])
    = Returned (inl notFound)
  ∧ requests
      (finalServer
         (createBiStreamingHandler plainRuntime routeChat chatServer None
            [RecvDoc hello; RecvDoc ∅; RecvDoc hello]))
    = [newRequest routeChat hello; newRequest routeChat ∅].
Proof.
  destruct (bidi_eof_and_not_found plainRuntime routeChat chatServer None
              [RecvDoc hello] _ _ eq_refl) as [Heof Hnone].
  split; [reflexivity|]. split; [|split].
  - change [RecvDoc hello; RecvErr EOF] with ([RecvDoc hello] ++ RecvErr EOF :: []).
    by rewrite Heof.
  - change [RecvDoc hello; RecvDoc ∅; RecvDoc hello]
      with ([RecvDoc hello] ++ RecvDoc ∅ :: [RecvDoc hello]).
    rewrite Hnone; [reflexivity|].
    apply (bool_decide_unpack _). vm_compute. exact I.
  - change [RecvDoc hello; RecvDoc ∅; RecvDoc hello]
      with ([RecvDoc hello] ++ RecvDoc ∅ :: [RecvDoc hello]).
    rewrite Hnone; [reflexivity|].
    apply (bool_decide_unpack _). vm_compute. exact I.
Defined.

(** ** Client streaming *)

Lemma keepsSent_headers rt entries :
  keeps isSendMsg (forPairs rt entries (λ p, perform rt (SendHeader p))).
Proof. eauto with trace. Qed.

Lemma keepsSent_trailers rt entries :
  keeps isSendMsg (forPairs rt entries (λ p, performAlways (SetTrailer p))).
Proof. eauto with trace. Qed.


Lemma clientScan_firstPair rt md rs ms c :
  clientScan rt md rs ms c
  = match firstPair rs ms with
    | Some (r, (i, m)) =>
        let '(c', o) := respond (clientReply rt md) m r md c in
        (alter (logRequest r) i ms, c', o)
    | None => (ms, c, Returned (inl notFound))
    end.
Proof.
  induction rs as [|r rs IH]; [done|].
  cbn [clientScan firstPair]. rewrite clientMatch_firstMatch.
  destruct (firstMatch ms r) as [[i m]|]; [|done].
  by destruct (respond (clientReply rt md) m r md c).
Qed.

(** [firstPair] is the first pair in the order of the two loops. *)
Lemma firstPair_Some rs ms r i m :
  firstPair rs ms = Some (r, (i, m)) →
  ∃ k, rs !! k = Some r ∧ ms !! i = Some m ∧ passes m r
       ∧ (∀ j m', j < i → ms !! j = Some m' → ¬ passes m' r)
       ∧ (∀ k' r' m', k' < k → rs !! k' = Some r' → m' ∈ ms → ¬ passes m' r').
Proof.
  induction rs as [|r0 rs IH]; [done|]. cbn [firstPair].
  destruct (firstMatch ms r0) as [[i0 m0]|] eqn:E.
  - intros [= -> -> ->]. apply firstMatch_Some in E as (Hi & Hp & Hlt).
    exists 0. repeat split; [done..|]. intros k' r' m' Hk. lia.
  - intros H. destruct (IH H) as (k & Hk & Hi & Hp & Hlt & Hearlier).
    exists (S k). repeat split; [done..|].
    intros [|k'] r' m' Hk' Hr' Hm'.
    + simpl in Hr'. injection Hr' as <-.
      apply firstMatch_None in E. rewrite Forall_forall in E. by apply E.
    + simpl in Hr'. apply (Hearlier k'); [lia|done..].
Qed.











(** Nothing queued: the reply is the empty output message. *)
Example client_streaming_empty_reply :
  let x := createClientStreamingHandler plainRuntime recordRoute
             (chain 0 (matcher_Status None) (Server_Match hasMessage freshServer))
             None [RecvDoc hello; RecvErr EOF] in
  finalOutcome x = Returned (inr ())
  ∧ sent (trace (finalCall x))
    = [{| descriptor := "routeguide.RouteSummary"; content := ∅ |}].
Proof. split; reflexivity. Qed.

(** ** Server streaming *)

Lemma allMatches_cons m ms r :
  allMatches (m :: ms) r
  = if evaluate m r then m :: allMatches ms r else allMatches ms r.
Proof.
  unfold allMatches. rewrite filter_cons, evaluate_decide.
  by destruct (decide (passes m r)) as [H|H];
    [rewrite bool_decide_eq_true_2|rewrite bool_decide_eq_false_2].
Qed.

(** The loop over all matchers does what [fireAll] does over those that
    pass. *)
Lemma serverMatch_fireAll rt md r ms c :
  ((serverMatch rt md r ms c).1.2, (serverMatch rt md r ms c).2)
  = fireAll rt md r (allMatches ms r) c.
Proof.
  revert c. induction ms as [|m ms IH]; intros c; [done|].
  rewrite allMatches_cons. cbn [serverMatch]. destruct (evaluate m r).
  - cbn [fireAll]. unfold respond. destruct (invoke m r md) as [res|]; [|done].
    destruct (serverReply rt md res c) as [c' [e|[]]]; [done|].
    rewrite <- IH. by destruct (serverMatch rt md r ms c') as [[ms' c''] o].
  - rewrite <- IH. by destruct (serverMatch rt md r ms c) as [[ms' c'] o].
Qed.

Lemma sent_snoc tr mes : sent (tr ++ [SendMsg mes]) = sent tr ++ [mes].
Proof. unfold sent. by rewrite omap_app. Qed.

Lemma encode_run rt md doc c : encode rt md doc c = (c, encoded rt md doc).
Proof.
  unfold encode, encoded. by destruct (unmarshal rt (Output md) doc).
Qed.

(** A message loop that completes has sent every message, in order. *)
Lemma sendMessages_sent rt md docs c c' :
  sendMessages rt md docs c = (c', inr ()) →
  ∃ mess,
    Forall2 (λ d mes, encoded rt md d = inr mes) docs mess
    ∧ sent (trace c') = sent (trace c) ++ mess.
Proof.
  revert c. induction docs as [|doc docs IH]; intros c.
  - intros [= <-]. exists []. split; [constructor|by rewrite app_nil_r].
  - cbn [sendMessages]. unfold io_bind at 1. rewrite encode_run.
    destruct (encoded rt md doc) as [e|mes] eqn:E; [done|].
    unfold io_bind at 1, perform.
    destruct (refuses rt (trace c) (SendMsg mes)); [done|].
    intros H. apply IH in H as (mess & Hmess & Hsent).
    exists (mes :: mess). split; [by constructor|].
    rewrite Hsent. cbn [trace]. by rewrite sent_snoc, <- app_assoc.
Qed.

(** A message loop that fails has sent the messages before the one that
    failed, in order. *)
Lemma sendMessages_partial rt md docs c c' e :
  sendMessages rt md docs c = (c', inl e) →
  ∃ k mess,
    k < length docs
    ∧ Forall2 (λ d mes, encoded rt md d = inr mes) (take k docs) mess
    ∧ sent (trace c') = sent (trace c) ++ mess.
Proof.
  revert c. induction docs as [|doc docs IH]; intros c; [done|].
  cbn [sendMessages]. unfold io_bind at 1. rewrite encode_run.
  destruct (encoded rt md doc) as [e'|mes] eqn:E.
  { intros [= <- <-]. exists 0, []. simpl.
    split; [lia|]. split; [constructor|by rewrite app_nil_r]. }
  unfold io_bind at 1, perform.
  destruct (refuses rt (trace c) (SendMsg mes)).
  { intros [= <- <-]. exists 0, []. simpl.
    split; [lia|]. split; [constructor|by rewrite app_nil_r]. }
  intros H. apply IH in H as (k & mess & Hk & Hmess & Hsent).
  exists (S k), (mes :: mess). simpl. split; [lia|]. split; [by constructor|].
  rewrite Hsent. cbn [trace]. by rewrite sent_snoc, <- app_assoc.
Qed.

(** [stream.SetTrailer] cannot fail, so the trailer loop completes. *)
Lemma forValues_always rt k v (mk : MD → event) c :
  ∃ c1, forValues rt k v (λ p, performAlways (mk p)) c = (c1, inr ()).
Proof.
  revert c. induction v as [|vv v IH]; intros c; [by eexists|].
  cbn [forValues]. unfold io_bind, performAlways at 1. apply IH.
Qed.

Lemma forPairs_always rt entries (mk : MD → event) c :
  ∃ c1, forPairs rt entries (λ p, performAlways (mk p)) c = (c1, inr ()).
Proof.
  revert c. induction entries as [|[k v] entries IH]; intros c; [by eexists|].
  cbn [forPairs]. unfold io_bind at 1.
  destruct (forValues_always rt k v mk c) as [c1 ->]. apply IH.
Qed.

(** What one matcher's reply adds to the stream. *)
Lemma serverReply_sent rt md res c c' o :
  serverReply rt md res c = (c', o) →
  match errorStatus res with
  | Some st =>
      sent (trace c') = sent (trace c)
      ∧ ∃ e, o = inl e
             ∧ ∀ c1, forPairs rt (rangeMD rt (res_Headers res))
                       (λ p, perform rt (SendHeader p)) c = (c1, inr ()) →
                     e = StatusError st
  | None =>
      match o with
      | inr _ =>
          ∃ mess,
            Forall2 (λ d mes, encoded rt md d = inr mes) (res_Messages res) mess
            ∧ sent (trace c') = sent (trace c) ++ mess
      | inl _ =>
          ∃ k mess,
            Forall2 (λ d mes, encoded rt md d = inr mes)
              (take k (res_Messages res)) mess
            ∧ sent (trace c') = sent (trace c) ++ mess
      end
  end.
Proof.
  unfold serverReply, io_bind.
  pose proof (keepsSent_headers rt (rangeMD rt (res_Headers res)) c) as Hh.
  destruct (forPairs rt (rangeMD rt (res_Headers res)) _ c) as [c1 [e|[]]];
    cbn [fst] in Hh; fold (sent (trace c1)) (sent (trace c)) in Hh.
  { intros [= <- <-]. rewrite Hh.
    destruct (errorStatus res).
    - split; [done|]. exists e. split; [done|]. by intros c2 [=].
    - exists 0, []. split; [constructor|by rewrite app_nil_r]. }
  pose proof (keepsSent_trailers rt (rangeMD rt (res_Trailers res)) c1) as Ht.
  destruct (forPairs_always rt (rangeMD rt (res_Trailers res)) SetTrailer c1)
    as [c2 Hc2].
  rewrite Hc2 in *. cbn [fst] in Ht. fold (sent (trace c2)) (sent (trace c1)) in Ht.
  rewrite checkStatus_errorStatus.
  destruct (errorStatus res) as [st|].
  { intros [= <- <-]. split; [congruence|].
    exists (StatusError st). split; [done|]. by intros c3 [=]. }
  rewrite <- Hh, <- Ht. destruct o as [e|[]].
  - intros H. apply sendMessages_partial in H as (k & mess & _ & Hmess & Hsent).
    by exists k, mess.
  - apply sendMessages_sent.
Qed.

Lemma forValues_accepting rt k v (mk : MD → event) c :
  accepting rt → ∃ c1, forValues rt k v (λ p, perform rt (mk p)) c = (c1, inr ()).
Proof.
  intros Hrt. revert c. induction v as [|vv v IH]; intros c; [by eexists|].
  cbn [forValues]. unfold io_bind, perform at 1. rewrite Hrt. apply IH.
Qed.

Lemma forPairs_accepting rt entries (mk : MD → event) c :
  accepting rt → ∃ c1, forPairs rt entries (λ p, perform rt (mk p)) c = (c1, inr ()).
Proof.
  intros Hrt. revert c.
  induction entries as [|[k v] entries IH]; intros c; [by eexists|].
  cbn [forPairs]. unfold io_bind at 1.
  destruct (forValues_accepting rt k v mk c Hrt) as [c1 ->]. apply IH.
Qed.

Lemma sendMessages_accepting rt md docs mess c :
  accepting rt →
  Forall2 (λ d mes, encoded rt md d = inr mes) docs mess →
  ∃ c', sendMessages rt md docs c = (c', inr ())
        ∧ sent (trace c') = sent (trace c) ++ mess.
Proof.
  intros Hrt H. revert c. induction H as [|d mes docs mess Hd _ IH]; intros c.
  - exists c. by rewrite app_nil_r.
  - cbn [sendMessages]. unfold io_bind at 1. rewrite encode_run, Hd.
    unfold io_bind at 1, perform. rewrite Hrt.
    destruct (IH {| trace := trace c ++ [SendMsg mes];
                    headerSent := headerSent c |}) as (c' & -> & Hsent).
    exists c'. split; [done|]. rewrite Hsent. cbn [trace].
    by rewrite sent_snoc, <- app_assoc.
Qed.

Lemma serverReply_accepting rt md res mess c :
  accepting rt → errorStatus res = None →
  Forall2 (λ d mes, encoded rt md d = inr mes) (res_Messages res) mess →
  ∃ c', serverReply rt md res c = (c', inr ())
        ∧ sent (trace c') = sent (trace c) ++ mess.
Proof.
  intros Hrt Hst Hmess. unfold serverReply, io_bind.
  pose proof (keepsSent_headers rt (rangeMD rt (res_Headers res)) c) as Hh.
  destruct (forPairs_accepting rt (rangeMD rt (res_Headers res)) SendHeader c Hrt)
    as [c1 Hc1].
  rewrite Hc1 in *. cbn [fst] in Hh.
  pose proof (keepsSent_trailers rt (rangeMD rt (res_Trailers res)) c1) as Ht.
  destruct (forPairs_always rt (rangeMD rt (res_Trailers res)) SetTrailer c1)
    as [c2 Hc2].
  rewrite Hc2 in *. cbn [fst] in Ht.
  rewrite checkStatus_errorStatus, Hst.
  destruct (sendMessages_accepting rt md _ _ c2 Hrt Hmess) as (c' & -> & Hsent).
  exists c'. split; [done|]. rewrite Hsent. unfold sent. congruence.
Qed.

(** With a runtime that accepts everything, handlers that answer without an
    error status and messages that encode, every fired matcher sends all its
    messages and the loop runs to its end. *)
Lemma fireAll_accepting rt md r fired ress mess c :
  accepting rt →
  Forall2 (λ m res, invoke m r md = Some res ∧ errorStatus res = None)
    fired ress →
  Forall2 (λ d mes, encoded rt md d = inr mes) (ress ≫= res_Messages) mess →
  ∃ c', fireAll rt md r fired c = (c', Returned (inr ()))
        ∧ sent (trace c') = sent (trace c) ++ mess.
Proof.
  intros Hrt H. revert mess c.
  induction H as [|m res fired ress [Hres Hst] _ IH]; intros mess c Hmess.
  - inversion Hmess; subst. exists c. by rewrite app_nil_r.
  - cbn [mbind list_bind] in Hmess.
    apply Forall2_app_inv_l in Hmess as (mess1 & mess2 & H1 & H2 & ->).
    cbn [fireAll]. unfold respond. rewrite Hres.
    destruct (serverReply_accepting rt md res mess1 c Hrt Hst H1)
      as (c1 & -> & Hsent1).
    destruct (IH mess2 c1 H2) as (c' & -> & Hsent).
    exists c'. split; [done|]. by rewrite Hsent, Hsent1, app_assoc.
Qed.

(** C5, as the code has it.  A server-streaming call fires the matchers
    whose predicates all pass on the request, in registration order, until
    the reply of one does not complete: the call ends with what that reply
    ended with, and the later matchers make no reply.  A reply whose
    response has no error status has streamed all its messages, in order,
    when it completes, and the first of them, up to the failure, when it
    does not (a header or a message refused by the runtime, a message that
    does not encode).  A reply whose response has an error status streams
    nothing and ends the call, with that status when its headers went out.
    When the runtime accepts every call, every passing matcher has a handler
    that answers without an error status and every message encodes, the
    replies are the messages of all passing matchers in registration order
    and the handler returns nil. *)
Theorem server_streaming_fires_matches (rt : Runtime) (md : MethodDescriptor)
    (s : Server) (ctx : option MD) (doc : Message) (rest : list recv) :
  let r := buildRequest md ctx doc in
  let c0 := receive (RecvDoc doc) newCall in
  let x := createServerStreamingHandler rt md s ctx (RecvDoc doc :: rest) in
  (finalCall x, finalOutcome x) = fireAll rt md r (allMatches (matchers s) r) c0
  ∧ (∀ res c c' o,
       serverReply rt md res c = (c', o) →
       match errorStatus res with
       | Some st =>
           sent (trace c') = sent (trace c)
           ∧ ∃ e, o = inl e
                  ∧ ∀ c1, forPairs rt (rangeMD rt (res_Headers res))
                            (λ p, perform rt (SendHeader p)) c = (c1, inr ()) →
                          e = StatusError st
       | None =>
           match o with
           | inr _ =>
               ∃ mess,
                 Forall2 (λ d mes, encoded rt md d = inr mes)
                   (res_Messages res) mess
                 ∧ sent (trace c') = sent (trace c) ++ mess
           | inl _ =>
               ∃ k mess,
                 Forall2 (λ d mes, encoded rt md d = inr mes)
                   (take k (res_Messages res)) mess
                 ∧ sent (trace c') = sent (trace c) ++ mess
           end
       end)
  ∧ (∀ ress mess,
       accepting rt →
       Forall2 (λ m res, invoke m r md = Some res ∧ errorStatus res = None)
         (allMatches (matchers s) r) ress →
       Forall2 (λ d mes, encoded rt md d = inr mes) (ress ≫= res_Messages) mess →
       sent (trace (finalCall x)) = mess ∧ finalOutcome x = Returned (inr ())).
Proof.
  intros r c0 x.
  assert ((finalCall x, finalOutcome x)
          = fireAll rt md r (allMatches (matchers s) r) c0) as Hfire.
  { unfold x, createServerStreamingHandler. fold r c0.
    pose proof (serverMatch_fireAll rt md r (matchers (record r s)) c0) as H.
    destruct (serverMatch rt md r (matchers (record r s)) c0) as [[ms c] o].
    exact H. }
  split; [exact Hfire|]. split; [apply serverReply_sent|].
  intros ress mess Hrt Hress Hmess.
  destruct (fireAll_accepting rt md r _ ress mess c0 Hrt Hress Hmess)
    as (c' & Hc' & Hsent).
  rewrite Hc' in Hfire. injection Hfire as -> ->. by split.
Qed.

(** Two matchers pass and each queues one message: two replies, in
    registration order, and the stream closes normally. *)
Lemma server_streaming_fires_matches_witness :
  let x := createServerStreamingHandler plainRuntime listFeatures twoReplies
             None [RecvDoc ∅] in
  sent (trace (finalCall x))
  = [{| descriptor := "routeguide.Feature"; content := docX |};
     {| descriptor := "routeguide.Feature"; content := docY |}]
  ∧ finalOutcome x = Returned (inr ()).
Proof.
  destruct (server_streaming_fires_matches plainRuntime listFeatures twoReplies
              None ∅ []) as (_ & _ & H).
  apply (H [appendMessage docX NewResponse; appendMessage docY NewResponse]).
  - by intros tr ev.
  - repeat constructor.
  - repeat constructor.
Defined.

(** With an error status on the first of the two matchers nothing is
    streamed: not its own message, and not the message of the second, which
    passes but does not fire. *)
Lemma everyMatchStreams_counterexample :
  ¬ everyMatchStreams plainRuntime listFeatures failFirst None ∅.
Proof.
  intros H.
  specialize (H (matcher_Response docY (newMatcher (methodMatchFunc "ListFeatures")))
                (appendMessage docY NewResponse) docY
                {| descriptor := "routeguide.Feature"; content := docY |}).
  assert (sent (trace (finalCall
            (createServerStreamingHandler plainRuntime listFeatures failFirst
               None [RecvDoc ∅]))) = []) as Hsent by reflexivity.
  rewrite Hsent in H. eapply not_elem_of_nil, H.
  - apply list_elem_of_further, list_elem_of_here.
  - reflexivity.
  - apply list_elem_of_here.
  - reflexivity.
Qed.

(** With a runtime that takes one header on a stream, two passing matchers
    that each declare a header stream the reply of the first only: the
    header of the second is refused and the call ends with that error. *)
Example server_streaming_second_header :
  let x := createServerStreamingHandler oneHeaderRuntime listFeatures twoHeaders
             None [RecvDoc ∅] in
  sent (trace (finalCall x))
  = [{| descriptor := "routeguide.Feature"; content := docX |}]
  ∧ finalOutcome x
    = Returned (inl (OtherError "transport: SendHeader called multiple times")).
Proof. split; reflexivity. Qed.

(** ** Life cycle *)

(** C9, as the code has it.  The three operations look at the listener, not
    at the status.  Without a listener each reports "server is not started
    yet" and returns ([Addr] the empty string, [Conn] nil) whatever the
    status is.  With a listener [Addr] and [Close] report nothing, and
    [Close] keeps the listener, so a closed server still has it. *)
Theorem listener_guard (net : Network) (s : Server) :
  (listener s = None →
     Addr s = (tReport notStarted s, EmptyString)
     ∧ Conn net s = (tReport notStarted s, ConnReturned None)
     ∧ t_errors (Close s) = t_errors s ++ [notStarted])
  ∧ (∀ l, listener s = Some l →
       Addr s = (s, l)
       ∧ t_errors (Close s) = t_errors s
       ∧ stopped (Close s) = true ∧ cc (Close s) = None)
  ∧ listener (Close s) = listener s
  ∧ status (Close s) = status_closed.
Proof.
  unfold Addr, Conn, Close. split; [|split; [|split]].
  - intros Hl. simpl. by rewrite Hl.
  - intros l Hl. simpl. rewrite Hl. by destruct (cc s) eqn:E.
  - simpl. destruct (listener s) eqn:El; [|done].
    destruct (cc s); simpl; by rewrite ?El.
  - done.
Qed.

(** A server whose listener could not be opened is in the state
    [status_start] and reports the error on each of the three operations. *)
Lemma listener_guard_witness :
  let s := NewServer deadNet None None in
  status s = status_start
  ∧ reported s (Addr s).1 ∧ reported s (Conn deadNet s).1 ∧ reported s (Close s).
Proof.
  intros s. destruct (listener_guard deadNet s) as (H & _).
  destruct (H eq_refl) as (Ha & Hc & Hx).
  split; [reflexivity|]. unfold reported. rewrite Ha, Hc, Hx.
  repeat split; by exists notStarted.
Defined.

(** A server that was started and then closed: the status is
    [status_closed], and [Addr] reports nothing. *)
Lemma inactiveUseReported_counterexample :
  ¬ inactiveUseReported localNet (Close freshServer).
Proof.
  intros H. destruct H as ([rep Hrep] & _).
  - apply list_elem_of_further, list_elem_of_further, list_elem_of_here.
  - discriminate Hrep.
Qed.

(** * Further properties of the code *)

(** ** Names: full names, paths and the two name predicates *)

Lemma splitMethodFullName_dot svc m :
  strings.Contains m "." = false →
  splitMethodFullName (svc +:+ String "." m) = (svc, m).
Proof.
  intros Hm. unfold splitMethodFullName. rewrite Split_app_sep by done.
  by rewrite allButLast_snoc, lastElem_snoc, Join_Split.
Qed.

(** X1. [splitMethodFullName] cuts a full name at its last dot: the part
    before it is the service, the part after it the method; a name without
    a dot is all method, with the empty service. *)
Theorem splitMethodFullName_parts (svc m : string) :
  strings.Contains m "." = false →
  splitMethodFullName (svc +:+ String "." m) = (svc, m)
  ∧ splitMethodFullName m = (EmptyString, m).
Proof.
  intros Hm. split; [by apply splitMethodFullName_dot|].
  unfold splitMethodFullName. by rewrite Split_no_sep.
Qed.

Lemma splitMethodFullName_parts_witness :
  splitMethodFullName "routeguide.RouteGuide.GetFeature"
  = ("routeguide.RouteGuide", "GetFeature")
  ∧ splitMethodFullName "GetFeature" = (EmptyString, "GetFeature").
Proof.
  apply (splitMethodFullName_parts "routeguide.RouteGuide" "GetFeature").
  reflexivity.
Defined.

Lemma newRequest_fields md svc m doc :
  FullName md = svc +:+ String "." m →
  strings.Contains m "." = false →
  req_Service (newRequest md doc) = svc ∧ req_Method (newRequest md doc) = m.
Proof.
  intros Hname Hm. unfold newRequest.
  by rewrite Hname, splitMethodFullName_dot.
Qed.

Lemma methodMatchFunc_plain name r :
  strings.Contains name "/" = false →
  methodMatchFunc name r = bool_decide (req_Method r = name).
Proof. intros H. unfold methodMatchFunc. by rewrite H. Qed.

Lemma methodMatchFunc_path p m r :
  strings.Contains m "/" = false →
  methodMatchFunc (p +:+ String "/" m) r
  = bool_decide (req_Service r = strings.TrimPrefix p "/")
    && bool_decide (req_Method r = m).
Proof.
  intros Hm. unfold methodMatchFunc. rewrite Contains_app_sep. simpl.
  by destruct (Split_TrimPrefix p m Hm) as [-> ->].
Qed.

(** X2. A request built from a descriptor with the full name [svc.m] passes
    the name predicates in every spelling the API takes: [Method(m)],
    [Method(svc/m)], [Method(/svc/m)], [Service(svc)] and [Service(/svc)]. *)
Theorem newRequest_passes_its_names (md : MethodDescriptor) (svc m : string)
    (doc : Message) :
  FullName md = svc +:+ String "." m →
  strings.Contains m "." = false →
  strings.Contains m "/" = false →
  strings.TrimPrefix svc "/" = svc →
  let r := newRequest md doc in
  methodMatchFunc m r = true
  ∧ methodMatchFunc (svc +:+ String "/" m) r = true
  ∧ methodMatchFunc (String "/" svc +:+ String "/" m) r = true
  ∧ serviceMatchFunc svc r = true
  ∧ serviceMatchFunc (String "/" svc) r = true.
Proof.
  intros Hname Hdot Hslash Hsvc r.
  destruct (newRequest_fields md svc m doc Hname Hdot) as [Hs Hm].
  fold r in Hs, Hm.
  rewrite methodMatchFunc_plain, !methodMatchFunc_path by done.
  unfold serviceMatchFunc. rewrite TrimPrefix_slash, Hsvc, Hs, Hm.
  by rewrite !bool_decide_eq_true_2.
Qed.

Lemma newRequest_passes_its_names_witness :
  let r := newRequest getFeature ∅ in
  methodMatchFunc "GetFeature" r = true
  ∧ methodMatchFunc "routeguide.RouteGuide/GetFeature" r = true
  ∧ methodMatchFunc "/routeguide.RouteGuide/GetFeature" r = true
  ∧ serviceMatchFunc "routeguide.RouteGuide" r = true
  ∧ serviceMatchFunc "/routeguide.RouteGuide" r = true.
Proof.
  apply (newRequest_passes_its_names getFeature "routeguide.RouteGuide"
           "GetFeature" ∅); reflexivity.
Defined.

(** X3. A name with a leading slash and no other is read as a path with the
    empty service: [Method(/m)] passes only on requests whose service is
    empty, so it fails on every request built from a descriptor [svc.m]
    with a service, which [Method(m)] passes. *)
Theorem Method_leading_slash_only (md : MethodDescriptor) (svc m : string)
    (doc : Message) :
  FullName md = svc +:+ String "." m →
  strings.Contains m "." = false →
  strings.Contains m "/" = false →
  svc ≠ EmptyString →
  methodMatchFunc (String "/" m) (newRequest md doc) = false
  ∧ methodMatchFunc m (newRequest md doc) = true.
Proof.
  intros Hname Hdot Hslash Hsvc.
  destruct (newRequest_fields md svc m doc Hname Hdot) as [Hs Hm].
  rewrite (methodMatchFunc_plain m) by done.
  rewrite (methodMatchFunc_path EmptyString m) by done.
  rewrite Hs, Hm. split; [|by rewrite bool_decide_eq_true_2].
  by rewrite bool_decide_eq_false_2.
Qed.

Lemma Method_leading_slash_only_witness :
  methodMatchFunc "/GetFeature" (newRequest getFeature ∅) = false
  ∧ methodMatchFunc "GetFeature" (newRequest getFeature ∅) = true.
Proof.
  apply (Method_leading_slash_only getFeature "routeguide.RouteGuide"
           "GetFeature" ∅); [reflexivity..|discriminate].
Defined.

(** ** Predicates and registration *)

(** X4. The predicates of a matcher are taken together: [m.Match(fn)] (and
    so [m.Service], [m.Method]) gives a matcher that passes exactly the
    requests that passed before and on which [fn] is true as well. *)
Theorem Match_narrows (fn : matchFunc) (m : matcher) (r : Request) :
  evaluate (matcher_Match fn m) r = evaluate m r && fn r.
Proof.
  unfold evaluate, matcher_Match. simpl.
  rewrite !evaluate_fold, forallb_app. simpl.
  by rewrite andb_true_r.
Qed.

Lemma firstMatch_app_l ms ms' r i m :
  firstMatch ms r = Some (i, m) → firstMatch (ms ++ ms') r = Some (i, m).
Proof. unfold firstMatch. apply list_find_app_l. Qed.

Lemma firstMatch_lt ms r i m : firstMatch ms r = Some (i, m) → i < length ms.
Proof.
  intros H. apply firstMatch_Some in H as (Hi & _). by eapply lookup_lt_Some.
Qed.

(** X5. Registration order is priority: when a registered matcher passes on
    the request of a unary call, registering one more matcher, whatever
    its predicate, changes neither the reply nor what the call asks of the
    runtime, and the new matcher logs nothing. *)
Theorem register_keeps_answer (rt : Runtime) (md : MethodDescriptor)
    (s : Server) (ctx : option MD) (doc : Message) (fn : matchFunc)
    (i : nat) (m : matcher) :
  firstMatch (matchers s) (buildRequest md ctx doc) = Some (i, m) →
  let x := createUnaryHandler rt md s ctx (RecvDoc doc) in
  let x' := createUnaryHandler rt md (register fn s) ctx (RecvDoc doc) in
  finalOutcome x' = finalOutcome x
  ∧ finalCall x' = finalCall x
  ∧ matchers (finalServer x') = matchers (finalServer x) ++ [newMatcher fn].
Proof.
  intros Hsel. unfold createUnaryHandler. cbv zeta.
  set (r := buildRequest md ctx doc) in *.
  rewrite !unaryMatch_firstMatch. simpl.
  rewrite (firstMatch_app_l _ [newMatcher fn] _ _ _ Hsel), Hsel.
  destruct (respond (unaryReply rt md) m r md _) as [c o].
  unfold finalOutcome, finalCall, finalServer. simpl.
  repeat split. apply alter_app_l. by eapply firstMatch_lt.
Qed.

Lemma register_keeps_answer_witness :
  let s' := Server_Method "GetFeature" featureServer in
  finalOutcome (createUnaryHandler plainRuntime getFeature s' None (RecvDoc ∅))
  = Returned (inr {| descriptor := "routeguide.Feature"; content := docX |})
  ∧ (m_requests <$> matchers
       (finalServer
          (createUnaryHandler plainRuntime getFeature s' None (RecvDoc ∅))))
    = [[newRequest getFeature ∅]; []].
Proof.
  intros s'.
  destruct (register_keeps_answer plainRuntime getFeature featureServer None ∅
              (methodMatchFunc "GetFeature") 0 _ eq_refl) as (Ho & _ & Hm).
  unfold s', Server_Method. rewrite Ho, Hm. split; reflexivity.
Defined.

(** ** Decorators *)

Lemma prevResponse_decorate mutation m r md :
  prevResponse (handler (decorate mutation m)) r md
  = mutation <$> prevResponse (handler m) r md.
Proof. reflexivity. Qed.

(** A run of decorators applies its mutations, first declared first. *)
Lemma prevResponse_foldl {X} (mu : X → Response → Response) xs m r md :
  prevResponse (handler (foldl (λ m x, decorate (mu x) m) m xs)) r md
  = (λ res, foldl (λ res x, mu x res) res xs) <$> prevResponse (handler m) r md.
Proof.
  revert m. induction xs as [|x xs IH]; intros m; simpl.
  - by destruct (prevResponse (handler m) r md).
  - rewrite IH, prevResponse_decorate.
    by destruct (prevResponse (handler m) r md).
Qed.

Lemma invoke_prevResponse m r md :
  is_Some (handler m) → invoke m r md = prevResponse (handler m) r md.
Proof. intros [h Hh]. unfold invoke. by rewrite Hh. Qed.

Lemma handler_foldl {X} (mu : X → Response → Response) xs m :
  xs ≠ [] ∨ is_Some (handler m) →
  is_Some (handler (foldl (λ m x, decorate (mu x) m) m xs)).
Proof.
  revert m. induction xs as [|x xs IH]; intros m [H|H]; try done.
  - simpl. apply IH. right. by eexists.
  - simpl. apply IH. right. by eexists.
Qed.

Lemma invoke_foldl {X} (mu : X → Response → Response) xs m r md :
  xs ≠ [] →
  invoke (foldl (λ m x, decorate (mu x) m) m xs) r md
  = (λ res, foldl (λ res x, mu x res) res xs) <$> prevResponse (handler m) r md.
Proof.
  intros Hxs. rewrite <- prevResponse_foldl. apply invoke_prevResponse.
  apply handler_foldl. by left.
Qed.

Lemma foldl_appendMessage docs res :
  foldl (λ res doc, appendMessage doc res) res docs
  = {| res_Headers := res_Headers res;
       res_Messages := res_Messages res ++ docs;
       res_Trailers := res_Trailers res; res_Status := res_Status res |}.
Proof.
  revert res. induction docs as [|doc docs IH]; intros res; simpl.
  - rewrite app_nil_r. by destruct res.
  - rewrite IH. simpl. by rewrite <- app_assoc.
Qed.

(** X6. Messages queue in declaration order: after
    [Response(d1)]...[Response(dn)] the handler answers with the response of
    the handler installed before (the empty response when there was none)
    with [d1],...,[dn] appended to its messages in that order; headers,
    trailers and status are as before. *)
Theorem Responses_in_order (docs : list Message) (m : matcher) (r : Request)
    (md : MethodDescriptor) :
  docs ≠ [] →
  invoke (chainResponses docs m) r md
  = (λ res, {| res_Headers := res_Headers res;
               res_Messages := res_Messages res ++ docs;
               res_Trailers := res_Trailers res;
               res_Status := res_Status res |})
    <$> prevResponse (handler m) r md.
Proof.
  intros Hdocs. unfold chainResponses, matcher_Response.
  rewrite (invoke_foldl appendMessage) by done.
  destruct (prevResponse (handler m) r md) as [res|]; [|done].
  simpl. by rewrite foldl_appendMessage.
Qed.

Lemma Responses_in_order_witness :
  res_Messages <$>
    invoke (chainResponses [docX; docY; docX]
              (newMatcher (methodMatchFunc "ListFeatures")))
      (newRequest listFeatures ∅) listFeatures
  = Some [docX; docY; docX].
Proof.
  rewrite (Responses_in_order [docX; docY; docX]); [reflexivity|discriminate].
Defined.

Lemma prevResponse_decorateWith mutation m r md :
  prevResponse (handler (decorateWith mutation m)) r md
  = prevResponse (handler m) r md ≫= mutation.
Proof. reflexivity. Qed.

(** X7. Decorators that write different parts of the response may be
    declared in either order: header, trailer, message and status
    decorators commute with each other, and so do two header decorators
    (and two trailer decorators) whose keys differ after lower-casing.
    This holds of the panics too: a chain panics on a response with a nil
    map in one order exactly when it does in the other. *)
Theorem decorators_commute (u : strings.Unicode) (m : matcher) (r : Request)
    (md : MethodDescriptor) (k v k' v' : string) (doc : Message)
    (st : option Status) :
  invoke (matcher_Header u k v (matcher_Trailer u k' v' m)) r md
    = invoke (matcher_Trailer u k' v' (matcher_Header u k v m)) r md
  ∧ invoke (matcher_Header u k v (matcher_Response doc m)) r md
    = invoke (matcher_Response doc (matcher_Header u k v m)) r md
  ∧ invoke (matcher_Header u k v (matcher_Status st m)) r md
    = invoke (matcher_Status st (matcher_Header u k v m)) r md
  ∧ invoke (matcher_Trailer u k v (matcher_Response doc m)) r md
    = invoke (matcher_Response doc (matcher_Trailer u k v m)) r md
  ∧ invoke (matcher_Trailer u k v (matcher_Status st m)) r md
    = invoke (matcher_Status st (matcher_Trailer u k v m)) r md
  ∧ invoke (matcher_Response doc (matcher_Status st m)) r md
    = invoke (matcher_Status st (matcher_Response doc m)) r md
  ∧ (strings.ToLower u k ≠ strings.ToLower u k' →
     invoke (matcher_Header u k v (matcher_Header u k' v' m)) r md
       = invoke (matcher_Header u k' v' (matcher_Header u k v m)) r md
     ∧ invoke (matcher_Trailer u k v (matcher_Trailer u k' v' m)) r md
       = invoke (matcher_Trailer u k' v' (matcher_Trailer u k v m)) r md).
Proof.
  unfold matcher_Header, matcher_Trailer, matcher_Response, matcher_Status.
  rewrite !invoke_decorateWith, !invoke_decorate, !prevResponse_decorateWith,
    !prevResponse_decorate.
  destruct (prevResponse (handler m) r md) as [res|]; [|done].
  unfold appendHeader, appendTrailer. simpl.
  destruct (res_Headers res) as [headers|], (res_Trailers res) as [trailers|];
    simpl; do 6 (split; [reflexivity|]); intros Hne; split;
    try reflexivity.
  all: f_equal; f_equal; f_equal; unfold metadata.Append;
    rewrite !lookup_insert_ne by done; by apply insert_insert_ne.
Qed.

Lemma decorators_commute_witness :
  let m := newMatcher (methodMatchFunc "GetFeature") in
  let r := newRequest getFeature ∅ in
  invoke (matcher_Header plainUnicode "a" "1"
            (matcher_Header plainUnicode "b" "2" m)) r getFeature
  = invoke (matcher_Header plainUnicode "b" "2"
              (matcher_Header plainUnicode "a" "1" m)) r getFeature.
Proof.
  intros m r.
  destruct (decorators_commute plainUnicode m r getFeature "a" "1" "b" "2"
              ∅ None)
    as (_ & _ & _ & _ & _ & _ & H).
  apply H. discriminate.
Defined.

(** A run of decorators that may panic. *)
Lemma prevResponse_foldlWith {X} (mu : X → Response → option Response) xs m r md :
  prevResponse (handler (foldl (λ m x, decorateWith (mu x) m) m xs)) r md
  = foldl (λ o x, o ≫= mu x) (prevResponse (handler m) r md) xs.
Proof.
  revert m. induction xs as [|x xs IH]; intros m; [done|].
  cbn [foldl]. by rewrite IH, prevResponse_decorateWith.
Qed.

Lemma handler_foldlWith {X} (mu : X → Response → option Response) xs m :
  xs ≠ [] ∨ is_Some (handler m) →
  is_Some (handler (foldl (λ m x, decorateWith (mu x) m) m xs)).
Proof.
  revert m. induction xs as [|x xs IH]; intros m [H|H]; try done.
  - simpl. apply IH. right. by eexists.
  - simpl. apply IH. right. by eexists.
Qed.

Lemma invoke_foldlWith {X} (mu : X → Response → option Response) xs m r md :
  xs ≠ [] →
  invoke (foldl (λ m x, decorateWith (mu x) m) m xs) r md
  = foldl (λ o x, o ≫= mu x) (prevResponse (handler m) r md) xs.
Proof.
  intros Hxs. rewrite <- prevResponse_foldlWith. apply invoke_prevResponse.
  apply handler_foldlWith. by left.
Qed.

Lemma foldl_bind_None {X} (mu : X → Response → option Response) xs :
  foldl (λ o x, o ≫= mu x) None xs = None.
Proof. by induction xs. Qed.

Lemma valuesFor_cons u k kv kvs :
  valuesFor u k (kv :: kvs)
  = if decide (strings.ToLower u kv.1 = k) then kv.2 :: valuesFor u k kvs
    else valuesFor u k kvs.
Proof.
  unfold valuesFor. simpl. by destruct (decide (strings.ToLower u kv.1 = k)).
Qed.

Lemma foldl_appendHeader u kvs res headers0 :
  res_Headers res = Some headers0 →
  ∃ res' headers,
    foldl (λ o kv, o ≫= appendHeader u kv.1 kv.2) (Some res) kvs = Some res'
    ∧ res_Headers res' = Some headers
    ∧ (∀ k, headers !! k
            = match valuesFor u k kvs with
              | [] => headers0 !! k
              | vs => Some (default [] (headers0 !! k) ++ vs)
              end)
    ∧ res_Messages res' = res_Messages res
    ∧ res_Trailers res' = res_Trailers res
    ∧ res_Status res' = res_Status res.
Proof.
  revert res headers0.
  induction kvs as [|[k0 v0] kvs IH]; intros res headers0 Hres.
  { by exists res, headers0. }
  cbn [foldl fst snd mbind option_bind]. unfold appendHeader at 2.
  rewrite Hres.
  edestruct IH as (res' & headers & -> & Hh' & Hh & Hm & Ht & Hs);
    [reflexivity|].
  exists res', headers. split; [done|]. split; [done|].
  split; [|by rewrite Hm, Ht, Hs].
  intros k. rewrite Hh, valuesFor_cons. cbn [fst snd].
  destruct (decide (strings.ToLower u k0 = k)) as [<-|Hne].
  - rewrite lookup_Append_eq. simpl.
    destruct (valuesFor u (strings.ToLower u k0) kvs); [done|].
    by rewrite <- app_assoc.
  - by rewrite lookup_Append_ne.
Qed.

(** X8. Header keys are lower-cased and their values pile up in declaration
    order: after [Header(k1, v1)]...[Header(kn, vn)] the response holds,
    under a key [k], what it held before followed by the [vi] whose [ki]
    lower-cases to [k], and a key none of the [ki] lower-cases to is as
    before; messages, trailers and status are untouched.  On a response
    whose [Headers] map is nil the first [Header] panics. *)
Theorem Headers_by_key (u : strings.Unicode) (kvs : list (string * string))
    (m : matcher) (r : Request) (md : MethodDescriptor) (res0 : Response) :
  kvs ≠ [] →
  prevResponse (handler m) r md = Some res0 →
  match res_Headers res0 with
  | None => invoke (chainHeaders u kvs m) r md = None
  | Some headers0 =>
      ∃ res headers,
        invoke (chainHeaders u kvs m) r md = Some res
        ∧ res_Headers res = Some headers
        ∧ (∀ k, headers !! k
                = match valuesFor u k kvs with
                  | [] => headers0 !! k
                  | vs => Some (default [] (headers0 !! k) ++ vs)
                  end)
        ∧ res_Messages res = res_Messages res0
        ∧ res_Trailers res = res_Trailers res0
        ∧ res_Status res = res_Status res0
  end.
Proof.
  intros Hkvs Hprev. unfold chainHeaders, matcher_Header.
  rewrite (invoke_foldlWith (λ kv, appendHeader u kv.1 kv.2)) by done.
  rewrite Hprev. destruct (res_Headers res0) as [headers0|] eqn:E.
  - by apply foldl_appendHeader.
  - destruct kvs as [|[k0 v0] kvs]; [done|].
    cbn [foldl mbind option_bind]. unfold appendHeader at 2. rewrite E.
    apply foldl_bind_None.
Qed.

(** [Header("Hello", "x")] and [Header("hello", "y")] meet under hello. *)
Lemma Headers_by_key_witness :
  ∃ res headers,
    invoke (chainHeaders plainUnicode [("Hello", "x"); ("b", "2"); ("hello", "y")]
              (newMatcher (methodMatchFunc "GetFeature")))
      (newRequest getFeature ∅) getFeature = Some res
    ∧ res_Headers res = Some headers
    ∧ headers !! "hello" = Some ["x"; "y"]
    ∧ headers !! "Hello" = None.
Proof.
  destruct (Headers_by_key plainUnicode
              [("Hello", "x"); ("b", "2"); ("hello", "y")]
              (newMatcher (methodMatchFunc "GetFeature"))
              (newRequest getFeature ∅) getFeature NewResponse)
    as (res & headers & Hres & Hh' & Hh & _); [discriminate|reflexivity|].
  exists res, headers. split; [exact Hres|]. split; [exact Hh'|].
  by rewrite !Hh.
Defined.

(** ** The handlers when nothing matches, when a handler is missing, when a
    receive fails *)

Lemma evaluate_false m r : ¬ passes m r → evaluate m r = false.
Proof.
  intros H. destruct (evaluate m r) eqn:E; [|done].
  by apply evaluate_passes in E.
Qed.

Lemma serverMatch_none rt md r ms c :
  Forall (λ m, ¬ passes m r) ms →
  serverMatch rt md r ms c = (ms, c, Returned (inr ())).
Proof.
  induction 1 as [|m ms Hm _ IH]; [done|].
  cbn [serverMatch]. by rewrite (evaluate_false m r Hm), IH.
Qed.

(** X9. A server-streaming call on whose request no matcher passes does not
    fail with not-found, as the other three call shapes do: the request is
    recorded, nothing is sent, and the handler returns nil, so the client
    sees an empty stream that closes normally. *)
Theorem server_streaming_no_match (rt : Runtime) (md : MethodDescriptor)
    (s : Server) (ctx : option MD) (doc : Message) (rest : list recv) :
  let r := buildRequest md ctx doc in
  Forall (λ m, ¬ passes m r) (matchers s) →
  createServerStreamingHandler rt md s ctx (RecvDoc doc :: rest)
  = (record r s, receive (RecvDoc doc) newCall, Returned (inr ())).
Proof.
  intros r Hnone. unfold createServerStreamingHandler. fold r.
  rewrite (serverMatch_none rt md r (matchers (record r s))) by done.
  by destruct s.
Qed.

Lemma server_streaming_no_match_witness :
  createServerStreamingHandler plainRuntime listFeatures featureServer None
    [RecvDoc ∅]
  = (record (newRequest listFeatures ∅) featureServer,
     receive (RecvDoc ∅) newCall, Returned (inr ())).
Proof.
  apply (server_streaming_no_match plainRuntime listFeatures featureServer
           None ∅ []).
  apply (bool_decide_unpack _). vm_compute. exact I.
Defined.

Lemma serverMatch_nil_handler rt md r ms c i m :
  firstMatch ms r = Some (i, m) → invoke m r md = None →
  serverMatch rt md r ms c = (alter (logRequest r) i ms, c, Panicked).
Proof.
  revert i. induction ms as [|m0 ms IH]; intros i; [done|].
  rewrite firstMatch_cons. cbn [serverMatch].
  destruct (evaluate m0 r).
  - intros [= <- <-] Hnil. by rewrite Hnil.
  - destruct (firstMatch ms r) as [[j m']|] eqn:E; [|done].
    intros [= <- <-] Hnil. by rewrite (IH j eq_refl Hnil).
Qed.

(** X10. A matcher needs a handler.  When the first matcher that passes on
    a request was registered without [Response], [Header], [Trailer],
    [Status] or [Handler], calling its nil handler panics, in every call
    shape, after the request went into the global log and into the
    matcher's log, and before anything is asked of the runtime. *)
Theorem call_on_matcher_without_handler (rt : Runtime) (md : MethodDescriptor)
    (s : Server) (ctx : option MD) (doc : Message) (rest : list recv)
    (i : nat) (m : matcher) :
  let r := buildRequest md ctx doc in
  let s' := chain i (logRequest r) (record r s) in
  let c := receive (RecvDoc doc) newCall in
  firstMatch (matchers s) r = Some (i, m) →
  handler m = None →
  createUnaryHandler rt md s ctx (RecvDoc doc) = (s', c, Panicked)
  ∧ createServerStreamingHandler rt md s ctx (RecvDoc doc :: rest)
    = (s', c, Panicked)
  ∧ createClientStreamingHandler rt md s ctx (RecvDoc doc :: RecvErr EOF :: rest)
    = (s', receive (RecvErr EOF) c, Panicked)
  ∧ createBiStreamingHandler rt md s ctx (RecvDoc doc :: rest)
    = (s', c, Panicked).
Proof.
  intros r s' c Hsel Hnil.
  assert (invoke m r md = None) as Hinv by (unfold invoke; by rewrite Hnil).
  repeat split.
  - unfold createUnaryHandler. fold r c. rewrite unaryMatch_firstMatch.
    simpl. rewrite Hsel. unfold respond. by rewrite Hinv.
  - unfold createServerStreamingHandler. fold r c.
    by rewrite (serverMatch_nil_handler rt md r (matchers (record r s)) c i m
                  Hsel Hinv).
  - unfold createClientStreamingHandler. cbn [clientLoop]. fold r c.
    cbn [clientScan app]. rewrite clientMatch_firstMatch. simpl.
    rewrite Hsel. unfold respond. by rewrite Hinv.
  - unfold createBiStreamingHandler. cbn [biLoop]. fold r c.
    rewrite biMatch_firstMatch. simpl. rewrite Hsel.
    unfold respond. by rewrite Hinv.
Qed.

Lemma call_on_matcher_without_handler_witness :
  let s := Server_Method "GetFeature" freshServer in
  finalOutcome (createUnaryHandler plainRuntime getFeature s None (RecvDoc ∅))
  = Panicked
  ∧ (m_requests <$> matchers
       (finalServer (createUnaryHandler plainRuntime getFeature s None
                       (RecvDoc ∅))))
    = [[newRequest getFeature ∅]].
Proof.
  intros s.
  destruct (call_on_matcher_without_handler plainRuntime getFeature s None ∅ []
              0 _ eq_refl eq_refl) as (-> & _).
  split; reflexivity.
Defined.

(** X11. The client-streaming loop has no exit for an error of [RecvMsg]
    other than [io.EOF]: it calls [RecvMsg] again.  However many documents
    and such errors arrive, the handler has not returned: every document is
    recorded, no matcher is consulted, nothing is sent, and the call still
    waits in [RecvMsg]. *)
Theorem client_streaming_keeps_receiving (rt : Runtime) (md : MethodDescriptor)
    (s : Server) (ctx : option MD) (xs : list recv) :
  Forall receivesOn xs →
  createClientStreamingHandler rt md s ctx xs
  = (recordAll (buildRequest md ctx <$> docsOf xs) s, receiveAll xs newCall,
     Blocked).
Proof.
  unfold createClientStreamingHandler. generalize (@nil Request) newCall.
  intros rs c Hxs. revert rs s c.
  induction Hxs as [|x xs Hx _ IH]; intros rs s c; [done|].
  cbn [clientLoop]. destruct x as [e|e|doc]; [|done|].
  - destruct e; [done|apply IH..].
  - apply IH.
Qed.

Lemma client_streaming_keeps_receiving_witness :
  let failed := RecvErr (OtherError "context canceled") in
  finalOutcome
    (createClientStreamingHandler plainRuntime recordRoute chatServer None
       [RecvDoc hello; failed; failed; failed])
  = Blocked.
Proof.
  intros failed.
  rewrite (client_streaming_keeps_receiving plainRuntime recordRoute chatServer
             None [RecvDoc hello; failed; failed; failed]); [reflexivity|].
  repeat constructor; discriminate.
Defined.

(** X12. The bidirectional loop does leave on such an error.  From a point
    where it waits, an error of [RecvMsg] other than [io.EOF], or a message
    that does not convert to a document, ends the call with that error:
    nothing more is recorded, logged or sent. *)
Theorem bidi_receive_error (rt : Runtime) (md : MethodDescriptor) (s : Server)
    (ctx : option MD) (pre rest : list recv) (s' : Server) (c' : call)
    (e : error) :
  createBiStreamingHandler rt md s ctx pre = (s', c', Blocked) →
  (e ≠ EOF →
   createBiStreamingHandler rt md s ctx (pre ++ RecvErr e :: rest)
   = (s', receive (RecvErr e) c', Returned (inl e)))
  ∧ createBiStreamingHandler rt md s ctx (pre ++ RecvBad e :: rest)
    = (s', receive (RecvBad e) c', Returned (inl e)).
Proof.
  unfold createBiStreamingHandler. intros Hpre.
  rewrite !(biLoop_app _ _ _ _ _ _ _ _ _ Hpre). split; [|done].
  intros He. cbn [biLoop]. by destruct e.
Qed.

Lemma bidi_receive_error_witness :
  let e := OtherError "context canceled" in
  finalOutcome
    (createBiStreamingHandler plainRuntime routeChat chatServer None
       [RecvDoc hello; RecvErr e; RecvDoc hello])
  = Returned (inl e)
  ∧ length (requests
      (finalServer
         (createBiStreamingHandler plainRuntime routeChat chatServer None
            [RecvDoc hello; RecvErr e; RecvDoc hello]))) = 1.
Proof.
  intros e.
  destruct (bidi_receive_error plainRuntime routeChat chatServer None
              [RecvDoc hello] [RecvDoc hello] _ _ e eq_refl) as [H _].
  change [RecvDoc hello; RecvErr e; RecvDoc hello]
    with ([RecvDoc hello] ++ RecvErr e :: [RecvDoc hello]).
  rewrite H by discriminate. split; reflexivity.
Defined.

(** ** What a reply asks of the runtime, and in which order *)

Lemma extend_nil c : extend [] c = c.
Proof. unfold extend. rewrite app_nil_r. by destruct c. Qed.

Lemma extend_extend evs1 evs2 c :
  extend evs2 (extend evs1 c) = extend (evs1 ++ evs2) c.
Proof. unfold extend. simpl. by rewrite app_assoc. Qed.

Lemma forValues_accepting_trace rt k v (mk : MD → event) c :
  accepting rt →
  forValues rt k v (λ p, perform rt (mk p)) c
  = (extend ((λ vv, mk (metadata.Pairs (unicode rt) k vv)) <$> v) c, inr ()).
Proof.
  intros Hrt. revert c. induction v as [|vv v IH]; intros c.
  - simpl. by rewrite extend_nil.
  - cbn [forValues]. unfold io_bind, perform at 1. rewrite Hrt, IH.
    unfold extend. simpl. by rewrite <- app_assoc.
Qed.

Lemma forPairs_accepting_trace rt entries (mk : MD → event) c :
  accepting rt →
  forPairs rt entries (λ p, perform rt (mk p)) c
  = (extend (calls rt mk entries) c, inr ()).
Proof.
  intros Hrt. revert c. induction entries as [|[k v] entries IH]; intros c.
  - simpl. by rewrite extend_nil.
  - cbn [forPairs]. unfold io_bind at 1.
    rewrite forValues_accepting_trace, IH by done.
    by rewrite extend_extend.
Qed.

Lemma forValues_always_trace rt k v (mk : MD → event) c :
  forValues rt k v (λ p, performAlways (mk p)) c
  = (extend ((λ vv, mk (metadata.Pairs (unicode rt) k vv)) <$> v) c, inr ()).
Proof.
  revert c. induction v as [|vv v IH]; intros c.
  - simpl. by rewrite extend_nil.
  - cbn [forValues]. unfold io_bind, performAlways at 1. rewrite IH.
    unfold extend. simpl. by rewrite <- app_assoc.
Qed.

Lemma forPairs_always_trace rt entries (mk : MD → event) c :
  forPairs rt entries (λ p, performAlways (mk p)) c
  = (extend (calls rt mk entries) c, inr ()).
Proof.
  revert c. induction entries as [|[k v] entries IH]; intros c.
  - simpl. by rewrite extend_nil.
  - cbn [forPairs]. unfold io_bind at 1.
    rewrite forValues_always_trace, IH. by rewrite extend_extend.
Qed.

(** X13. A unary reply sets the headers, then the trailers, one call for
    each value, and only then looks at the status: with a runtime that
    refuses nothing the same metadata calls are made whether the call then
    returns the handler's error status, fails to encode the message or
    succeeds. *)
Theorem unary_reply_trace (rt : Runtime) (md : MethodDescriptor)
    (res : Response) (c : call) :
  accepting rt →
  unaryReply rt md res c
  = (extend (calls rt SetHeader (rangeMD rt (res_Headers res))
             ++ calls rt SetTrailer (rangeMD rt (res_Trailers res))) c,
     match errorStatus res with
     | Some st => inl (StatusError st)
     | None => singleReply rt md res
     end).
Proof.
  intros Hrt. unfold unaryReply, io_bind.
  rewrite !forPairs_accepting_trace by done.
  rewrite checkStatus_errorStatus, firstMessage_run, extend_extend.
  by destruct (errorStatus res).
Qed.

Lemma unary_reply_trace_witness :
  let res := trailerT (headerA
               (setStatus (Some statusUnknown) NewResponse)) in
  unaryReply plainRuntime getFeature res newCall
  = ({| trace := [SetHeader {[ "a" := ["1"] ]}; SetTrailer {[ "t" := ["9"] ]}];
        headerSent := false |},
     inl (StatusError statusUnknown)).
Proof.
  intros res. rewrite unary_reply_trace; [reflexivity|by intros tr ev].
Defined.

(** X14. A client-streaming reply looks at the status first and encodes the
    message second: an error status, or a message that does not encode,
    ends the call before any header or trailer goes out.  Otherwise, with a
    runtime that refuses nothing, the headers are sent, the trailers set and
    the one message sent, in this order. *)
Theorem client_reply_trace (rt : Runtime) (md : MethodDescriptor)
    (res : Response) (c : call) :
  accepting rt →
  clientReply rt md res c
  = match errorStatus res with
    | Some st => (c, inl (StatusError st))
    | None =>
        match singleReply rt md res with
        | inl e => (c, inl e)
        | inr mes =>
            (extend (calls rt SendHeader (rangeMD rt (res_Headers res))
                     ++ calls rt SetTrailer (rangeMD rt (res_Trailers res))
                     ++ [SendMsg mes]) c,
             inr ())
        end
    end.
Proof.
  intros Hrt. unfold clientReply, io_bind.
  rewrite checkStatus_errorStatus, firstMessage_run.
  destruct (errorStatus res) as [st|]; [done|].
  destruct (singleReply rt md res) as [e|mes]; [done|].
  rewrite forPairs_accepting_trace, forPairs_always_trace by done.
  unfold perform. rewrite Hrt. f_equal.
  rewrite extend_extend. unfold extend. simpl. by rewrite <- !app_assoc.
Qed.

Lemma client_reply_trace_witness :
  clientReply plainRuntime recordRoute
    (headerA (setStatus (Some statusUnknown) NewResponse)) newCall
  = (newCall, inl (StatusError statusUnknown))
  ∧ clientReply plainRuntime recordRoute
      (headerA (appendMessage hello NewResponse)) newCall
    = ({| trace := [SendHeader {[ "a" := ["1"] ]};
                    SendMsg {| descriptor := "routeguide.RouteSummary";
                               content := hello |}];
          headerSent := false |}, inr ()).
Proof.
  split; (rewrite client_reply_trace; [reflexivity|by intros tr ev]).
Defined.

Lemma sendMessages_accepting_trace rt md docs mess c :
  accepting rt →
  Forall2 (λ d mes, encoded rt md d = inr mes) docs mess →
  sendMessages rt md docs c = (extend (SendMsg <$> mess) c, inr ()).
Proof.
  intros Hrt H. revert c. induction H as [|d mes docs mess Hd _ IH]; intros c.
  - simpl. by rewrite extend_nil.
  - cbn [sendMessages]. unfold io_bind at 1. rewrite encode_run, Hd.
    unfold io_bind at 1, perform. rewrite Hrt, IH.
    unfold extend. simpl. by rewrite <- app_assoc.
Qed.

(** X15. A server-streaming reply sends the headers, sets the trailers and
    then looks at the status: with a runtime that refuses nothing and
    messages that encode, an error status ends the call after these
    metadata calls and before any message, and otherwise every message is
    sent after them, in order. *)
Theorem server_reply_trace (rt : Runtime) (md : MethodDescriptor)
    (res : Response) (mess : list dynMessage) (c : call) :
  accepting rt →
  Forall2 (λ d mes, encoded rt md d = inr mes) (res_Messages res) mess →
  let metadata_calls :=
    calls rt SendHeader (rangeMD rt (res_Headers res))
    ++ calls rt SetTrailer (rangeMD rt (res_Trailers res)) in
  serverReply rt md res c
  = match errorStatus res with
    | Some st => (extend metadata_calls c, inl (StatusError st))
    | None => (extend (metadata_calls ++ (SendMsg <$> mess)) c, inr ())
    end.
Proof.
  intros Hrt Hmess. cbv zeta. unfold serverReply, io_bind.
  rewrite forPairs_accepting_trace, forPairs_always_trace by done.
  rewrite checkStatus_errorStatus, extend_extend.
  destruct (errorStatus res) as [st|]; [done|].
  rewrite (sendMessages_accepting_trace rt md _ mess) by done.
  by rewrite extend_extend.
Qed.

Lemma server_reply_trace_witness :
  serverReply plainRuntime listFeatures
    (headerA (appendMessage docY (appendMessage docX NewResponse)))
    newCall
  = ({| trace := [SendHeader {[ "a" := ["1"] ]};
                  SendMsg {| descriptor := "routeguide.Feature"; content := docX |};
                  SendMsg {| descriptor := "routeguide.Feature"; content := docY |}];
        headerSent := false |}, inr ()).
Proof.
  rewrite (server_reply_trace plainRuntime listFeatures _
             [{| descriptor := "routeguide.Feature"; content := docX |};
              {| descriptor := "routeguide.Feature"; content := docY |}]);
    [reflexivity|by intros tr ev|by repeat constructor].
Defined.

(** ** The header latch of the bidirectional handler *)

Section Latch.
Context {X : Type} (obs : event → option X).

Lemma keeps_sendMessages rt md docs :
  (∀ mes, obs (SendMsg mes) = None) → keeps obs (sendMessages rt md docs).
Proof.
  intros Hobs. induction docs as [|doc docs IH]; simpl; eauto 10 with trace.
Qed.
End Latch.

Lemma keepsLatch_ret {A} (a : A) : keepsLatch (io_ret a).
Proof. by intros c. Qed.

Lemma keepsLatch_fail {A} (e : error) : keepsLatch (@io_fail A e).
Proof. by intros c. Qed.

Lemma keepsLatch_bind {A B} (m : io A) (k : A → io B) :
  keepsLatch m → (∀ a, keepsLatch (k a)) → keepsLatch (io_bind m k).
Proof.
  intros Hm Hk c Hc. unfold io_bind. specialize (Hm c Hc).
  destruct (m c) as [c' [e|a]]; [done|]. by apply Hk.
Qed.

Lemma keepsLatch_perform rt ev : keepsLatch (perform rt ev).
Proof. intros c Hc. unfold perform. by destruct (refuses rt (trace c) ev). Qed.

Lemma keepsLatch_performAlways ev : keepsLatch (performAlways ev).
Proof. by intros c Hc. Qed.

Lemma keepsLatch_forValues rt k v body :
  (∀ p, keepsLatch (body p)) → keepsLatch (forValues rt k v body).
Proof.
  intros Hbody. induction v as [|vv v IH]; simpl.
  - apply keepsLatch_ret.
  - by apply keepsLatch_bind.
Qed.

Lemma keepsLatch_forPairs rt entries body :
  (∀ p, keepsLatch (body p)) → keepsLatch (forPairs rt entries body).
Proof.
  intros Hbody. induction entries as [|[k v] entries IH]; simpl.
  - apply keepsLatch_ret.
  - apply keepsLatch_bind; [by apply keepsLatch_forValues|done].
Qed.

Lemma keepsLatch_checkStatus st : keepsLatch (checkStatus st).
Proof.
  unfold checkStatus.
  destruct (st ≫= Status_Err); [apply keepsLatch_fail|apply keepsLatch_ret].
Qed.

Lemma keepsLatch_sendMessages rt md docs : keepsLatch (sendMessages rt md docs).
Proof.
  induction docs as [|doc docs IH]; simpl; [apply keepsLatch_ret|].
  apply keepsLatch_bind.
  - unfold encode. destruct (unmarshal rt (Output md) doc);
      [apply keepsLatch_fail|apply keepsLatch_ret].
  - intros mes. apply keepsLatch_bind; [apply keepsLatch_perform|done].
Qed.

(** A reply made when the latch is set sends no header and leaves it set. *)
Lemma biReply_latched rt md res c :
  headerSent c = true →
  omap isSendHeader (trace (biReply rt md res c).1)
    = omap isSendHeader (trace c)
  ∧ headerSent (biReply rt md res c).1 = true.
Proof.
  intros Hc.
  set (rest := (forPairs rt (rangeMD rt (res_Trailers res))
                  (λ p, performAlways (SetTrailer p)) ;;
                checkStatus (res_Status res) ;;
                sendMessages rt md (res_Messages res))).
  assert (biReply rt md res c = rest c) as ->.
  { unfold biReply, io_bind at 1. by rewrite Hc. }
  split.
  - assert (keeps isSendHeader rest) as H; [|apply H].
    unfold rest. apply keeps_bind; [eauto with trace|].
    intros _. apply keeps_bind; [eauto with trace|].
    intros _. by apply keeps_sendMessages.
  - assert (keepsLatch rest) as H; [|by apply H].
    unfold rest. apply keepsLatch_bind.
    { apply keepsLatch_forPairs. intros p. apply keepsLatch_performAlways. }
    intros _. apply keepsLatch_bind; [apply keepsLatch_checkStatus|].
    intros _. apply keepsLatch_sendMessages.
Qed.

Lemma biLoop_latched rt md ctx inbox s c :
  headerSent c = true →
  omap isSendHeader (trace (finalCall (biLoop rt md ctx inbox s c)))
  = omap isSendHeader (trace c).
Proof.
  revert s c. induction inbox as [|x inbox IH]; intros s c Hc; [done|].
  cbn [biLoop].
  assert (omap isSendHeader (trace (receive x c)) = omap isSendHeader (trace c))
    as Hrecv.
  { unfold receive. simpl. rewrite omap_app. simpl. by rewrite app_nil_r. }
  destruct x as [e|e|doc]; [by destruct e|done|].
  set (r := buildRequest md ctx doc).
  rewrite biMatch_firstMatch.
  destruct (firstMatch (matchers (record r s)) r) as [[i m]|]; [|done].
  unfold respond. destruct (invoke m r md) as [res|]; [|done].
  destruct (biReply_latched rt md res (receive (RecvDoc doc) c) Hc) as [Hh Hl].
  destruct (biReply rt md res (receive (RecvDoc doc) c)) as [c1 [e|[]]].
  - unfold finalCall. simpl in *. congruence.
  - rewrite IH by done. simpl in *. congruence.
Qed.

(** X16. In a bidirectional call headers go out with one reply only.  Once
    a header was accepted, [headerSent] is set, and from then on, whatever
    the call receives and whichever matchers answer, the handler never
    calls [SendHeader] again: the headers of all later responses are
    dropped. *)
Theorem bidi_headers_once (rt : Runtime) (md : MethodDescriptor) (s : Server)
    (ctx : option MD) (pre rest : list recv) (s' : Server) (c' : call) :
  createBiStreamingHandler rt md s ctx pre = (s', c', Blocked) →
  headerSent c' = true →
  omap isSendHeader
    (trace (finalCall (createBiStreamingHandler rt md s ctx (pre ++ rest))))
  = omap isSendHeader (trace c').
Proof.
  unfold createBiStreamingHandler. intros Hpre Hc.
  rewrite (biLoop_app _ _ _ _ _ _ _ _ _ Hpre). by apply biLoop_latched.
Qed.

(** Every response of this server carries the header hello; of three
    replies only the first sends it. *)
Lemma bidi_headers_once_witness :
  let x := createBiStreamingHandler plainRuntime routeChat headerServer None
             [RecvDoc hello; RecvDoc hello; RecvDoc hello] in
  omap isSendHeader (trace (finalCall x)) = [{[ "hello" := ["header"] ]}]
  ∧ length (sent (trace (finalCall x))) = 3.
Proof.
  cbv zeta.
  change [RecvDoc hello; RecvDoc hello; RecvDoc hello]
    with ([RecvDoc hello] ++ [RecvDoc hello; RecvDoc hello]).
  rewrite (bidi_headers_once plainRuntime routeChat headerServer None
             [RecvDoc hello] _ _ _ eq_refl eq_refl).
  split; reflexivity.
Defined.

(** ** One matcher for each message *)

(** X17. The bidirectional handler answers each message with one matcher:
    from a point where it waits, a document on which registered matchers
    pass is logged and answered by the earliest of them alone, and when its
    reply completes the call waits for the next message; matchers
    registered later do not see the message even when they pass on it. *)
Theorem bidi_first_match_only (rt : Runtime) (md : MethodDescriptor)
    (s : Server) (ctx : option MD) (pre : list recv) (s' : Server) (c' : call)
    (doc : Message) (i : nat) (m : matcher) :
  let r := buildRequest md ctx doc in
  createBiStreamingHandler rt md s ctx pre = (s', c', Blocked) →
  firstMatch (matchers s') r = Some (i, m) →
  createBiStreamingHandler rt md s ctx (pre ++ [RecvDoc doc])
  = let '(c1, o) := respond (biReply rt md) m r md (receive (RecvDoc doc) c') in
    (chain i (logRequest r) (record r s'), c1,
     match o with
     | Returned (inr _) => Blocked
     | _ => o
     end).
Proof.
  intros r Hpre Hsel. unfold createBiStreamingHandler in *.
  rewrite (biLoop_app _ _ _ _ _ _ _ _ _ Hpre). cbn [biLoop]. fold r.
  rewrite biMatch_firstMatch. simpl. rewrite Hsel.
  destruct (respond (biReply rt md) m r md (receive (RecvDoc doc) c'))
    as [c1 [[e|[]]| |]]; done.
Qed.

(** The note of client 0 passes both matchers of [TestBidiStreaming]; only
    the first logs it and replies. *)
Lemma bidi_first_match_only_witness :
  let x := createBiStreamingHandler plainRuntime routeChat testBidiServer None
             [RecvDoc (note "client" "0")] in
  allMatches (matchers testBidiServer) (newRequest routeChat (note "client" "0"))
  = matchers testBidiServer
  ∧ (length ∘ m_requests <$> matchers (finalServer x)) = [1; 0]
  ∧ length (sent (trace (finalCall x))) = 1.
Proof.
  cbv zeta. split; [reflexivity|].
  change [RecvDoc (note "client" "0")] with ([] ++ [RecvDoc (note "client" "0")]).
  rewrite (bidi_first_match_only plainRuntime routeChat testBidiServer None []
             testBidiServer newCall (note "client" "0") 0 _ eq_refl eq_refl).
  split; reflexivity.
Defined.

Lemma sum_logged_alter ms i m r :
  ms !! i = Some m →
  sum_list (length ∘ m_requests <$> alter (logRequest r) i ms)
  = sum_list (length ∘ m_requests <$> ms) + 1.
Proof.
  revert i. induction ms as [|m0 ms IH]; intros [|i] Hi; try done.
  - simpl in *. injection Hi as ->. rewrite length_app. simpl. lia.
  - pose proof (IH i Hi) as H. simpl. unfold fmap, alter in H. lia.
Qed.

Lemma sum_logged_firstMatch ms r i m :
  firstMatch ms r = Some (i, m) →
  sum_list (length ∘ m_requests <$> alter (logRequest r) i ms)
  = sum_list (length ∘ m_requests <$> ms) + 1.
Proof.
  intros H. apply firstMatch_Some in H as (Hi & _).
  by eapply sum_logged_alter.
Qed.

Lemma clientScan_logged rt md rs ms c :
  (sum_list (length ∘ m_requests <$> (clientScan rt md rs ms c).1.1)
   ≤ sum_list (length ∘ m_requests <$> ms) + 1)%nat.
Proof.
  rewrite clientScan_firstPair.
  destruct (firstPair rs ms) as [[r [i m]]|] eqn:E; [|simpl; lia].
  destruct (respond (clientReply rt md) m r md c) as [c1 o]. simpl.
  apply firstPair_Some in E as (k & _ & Hi & _).
  rewrite (sum_logged_alter ms i m r Hi). lia.
Qed.

Lemma clientLoop_logged rt md ctx inbox rs s c :
  (totalLogged (finalServer (clientLoop rt md ctx inbox rs s c))
   ≤ totalLogged s + 1)%nat.
Proof.
  revert rs s c. induction inbox as [|x inbox IH]; intros rs s c.
  - unfold finalServer. cbn [clientLoop fst]. lia.
  - cbn [clientLoop]. destruct x as [e|e|doc].
    + destruct e; [|apply IH..].
      pose proof (clientScan_logged rt md rs (matchers s)
                    (receive (RecvErr EOF) c)) as H.
      by destruct (clientScan rt md rs (matchers s) _) as [[ms c1] o].
    + unfold finalServer. cbn [fst]. lia.
    + apply (IH _ (record (buildRequest md ctx doc) s)).
Qed.

(** X18. A unary call and a client-streaming call log their request with one
    matcher at most: whatever arrives and however many matchers pass on how
    many buffered requests, the matchers' logs together grow by no more than
    one entry. *)
Theorem one_log_entry_at_most (rt : Runtime) (md : MethodDescriptor)
    (s : Server) (ctx : option MD) :
  (∀ dec,
     (totalLogged (finalServer (createUnaryHandler rt md s ctx dec))
      ≤ totalLogged s + 1)%nat)
  ∧ (∀ inbox,
       (totalLogged
          (finalServer (createClientStreamingHandler rt md s ctx inbox))
        ≤ totalLogged s + 1)%nat).
Proof.
  split.
  - intros dec. unfold createUnaryHandler. destruct dec as [e|e|doc];
      cbv zeta; [unfold finalServer; cbn [fst]; lia..|].
    set (r := buildRequest md ctx doc). rewrite unaryMatch_firstMatch.
    destruct (firstMatch (matchers (record r s)) r) as [[i m]|] eqn:E.
    + destruct (respond (unaryReply rt md) m r md _) as [c1 o].
      pose proof (sum_logged_firstMatch _ _ _ _ E) as H.
      unfold totalLogged, finalServer.
      cbn [fst matchers setMatchers record] in *. lia.
    + unfold totalLogged, finalServer. cbn [fst matchers setMatchers record].
      lia.
  - intros inbox. apply clientLoop_logged.
Qed.

(** ** What a call leaves alone *)

Lemma sameLifecycle_refl s : sameLifecycle s s.
Proof. by repeat split. Qed.

Lemma sameLifecycle_step ms r s s' :
  sameLifecycle (setMatchers ms (record r s)) s' → sameLifecycle s s'.
Proof. intros H. exact H. Qed.

Lemma clientLoop_lifecycle rt md ctx inbox rs s c :
  sameLifecycle s (finalServer (clientLoop rt md ctx inbox rs s c)).
Proof.
  revert rs s c. induction inbox as [|x inbox IH]; intros rs s c.
  - apply sameLifecycle_refl.
  - cbn [clientLoop]. destruct x as [e|e|doc].
    + destruct e; [|apply IH..].
      destruct (clientScan rt md rs (matchers s) _) as [[ms c1] o].
      by repeat split.
    + apply sameLifecycle_refl.
    + apply (IH (rs ++ [buildRequest md ctx doc])
               (record (buildRequest md ctx doc) s)).
Qed.

Lemma biLoop_lifecycle rt md ctx inbox s c :
  sameLifecycle s (finalServer (biLoop rt md ctx inbox s c)).
Proof.
  revert s c. induction inbox as [|x inbox IH]; intros s c.
  - apply sameLifecycle_refl.
  - cbn [biLoop]. destruct x as [e|e|doc].
    + destruct e; apply sameLifecycle_refl.
    + apply sameLifecycle_refl.
    + set (r := buildRequest md ctx doc).
      destruct (biMatch rt md r (matchers (record r s)) _) as [[ms c1] o].
      destruct o as [[e|u]| |]; try by repeat split.
      apply (sameLifecycle_step ms r), IH.
Qed.

(** X19. Serving a call touches the two kinds of log and nothing else: in
    every call shape and on every input the listener, the connection, the
    TLS settings, the status and what was reported to the test are as
    before, and so is the number of matchers.  A call that fails, also one
    that finds no matcher, reports nothing to the test. *)
Theorem calls_leave_lifecycle (rt : Runtime) (md : MethodDescriptor)
    (s : Server) (ctx : option MD) :
  (∀ dec,
     let s' := finalServer (createUnaryHandler rt md s ctx dec) in
     sameLifecycle s s' ∧ length (matchers s') = length (matchers s))
  ∧ (∀ inbox,
       let s' := finalServer (createServerStreamingHandler rt md s ctx inbox) in
       sameLifecycle s s' ∧ length (matchers s') = length (matchers s))
  ∧ (∀ inbox,
       let s' := finalServer (createClientStreamingHandler rt md s ctx inbox) in
       sameLifecycle s s' ∧ length (matchers s') = length (matchers s))
  ∧ (∀ inbox,
       let s' := finalServer (createBiStreamingHandler rt md s ctx inbox) in
       sameLifecycle s s' ∧ length (matchers s') = length (matchers s)).
Proof.
  repeat apply conj; intros x; cbv zeta.
  - unfold createUnaryHandler. destruct x as [e|e|doc]; cbv zeta;
      [by split; [apply sameLifecycle_refl|]..|].
    set (r := buildRequest md ctx doc).
    pose proof (unaryMatch_logs rt md r (matchers (record r s))
                  (receive (RecvDoc doc) newCall)) as H.
    destruct (unaryMatch rt md r _ _) as [[ms c] o].
    split; [by repeat split|]. symmetry. by apply Forall2_length in H.
  - unfold createServerStreamingHandler.
    destruct x as [|[e|e|doc] inbox]; cbv zeta;
      [by split; [apply sameLifecycle_refl|]..|].
    set (r := buildRequest md ctx doc).
    pose proof (serverMatch_logs rt md r (matchers (record r s))
                  (receive (RecvDoc doc) newCall)) as H.
    destruct (serverMatch rt md r _ _) as [[ms c] o].
    split; [by repeat split|]. symmetry. by apply Forall2_length in H.
  - unfold createClientStreamingHandler. split.
    + apply clientLoop_lifecycle.
    + destruct (clientLoop_logs rt md ctx x [] s newCall) as (new & _ & H).
      symmetry. by apply Forall2_length in H.
  - unfold createBiStreamingHandler. split.
    + apply biLoop_lifecycle.
    + destruct (biLoop_logs rt md ctx x s newCall) as (new & _ & H).
      symmetry. by apply Forall2_length in H.
Qed.

(** ** Close and Conn *)

Lemma Conn_listener net s : listener (Conn net s).1 = listener s.
Proof.
  unfold Conn. destruct (listener s) as [l|] eqn:El; [|by simpl].
  destruct (tlsc s) as [cfg|]; [destruct (cacert s) as [ca|];
    [destruct (AppendCertsFromPEM net ca)|]|];
    try (destruct (Dial net l)); simpl; by rewrite ?El.
Qed.

(** X20. Closing twice is closing once: on a server whose listener was
    opened, a second [Close] changes nothing and reports nothing.  And
    [Close] undoes [Conn]: whatever [Conn] returned, after [Close] the
    server holds no client connection, is stopped and closed, and still
    holds its listener. *)
Theorem Close_idempotent (net : Network) (s : Server) (l : string) :
  listener s = Some l →
  Close (Close s) = Close s
  ∧ let s1 := Close (Conn net s).1 in
    cc s1 = None ∧ stopped s1 = true ∧ status s1 = status_closed
    ∧ listener s1 = Some l.
Proof.
  intros Hl. split.
  - unfold Close. simpl. rewrite Hl. destruct (cc s) eqn:E; simpl; rewrite ?Hl, ?E; reflexivity.
  - cbv zeta. pose proof (Conn_listener net s) as H. rewrite Hl in H.
    unfold Close. simpl. rewrite H.
    destruct (cc (Conn net s).1) eqn:E; simpl; rewrite ?H, ?E; done.
Qed.

Lemma Close_idempotent_witness :
  cc (Conn localNet freshServer).1 = Some "127.0.0.1:50051"
  ∧ cc (Close (Conn localNet freshServer).1) = None
  ∧ Close (Close freshServer) = Close freshServer.
Proof.
  destruct (Close_idempotent localNet freshServer "127.0.0.1:50051" eq_refl)
    as (Hi & Hc & _).
  split; [reflexivity|]. split; [exact Hc|exact Hi].
Defined.

(** X21. [Conn] never fails in silence.  Either it returns a connection,
    the one the dial to the listener's address gave, which is then stored
    with nothing reported; or it returns nil or ends the test, and then
    exactly one report went to the test and the stored connection is the
    one from before.  In both cases listener, status, log and matchers are
    untouched. *)
Theorem Conn_connects_or_reports (net : Network) (s : Server) :
  match (Conn net s).2 with
  | ConnReturned (Some conn) =>
      cc (Conn net s).1 = Some conn
      ∧ t_errors (Conn net s).1 = t_errors s
      ∧ ∃ l, listener s = Some l ∧ Dial net l = inr conn
  | _ =>
      cc (Conn net s).1 = cc s
      ∧ ∃ rep, t_errors (Conn net s).1 = t_errors s ++ [rep]
  end
  ∧ listener (Conn net s).1 = listener s
  ∧ status (Conn net s).1 = status s
  ∧ stopped (Conn net s).1 = stopped s
  ∧ requests (Conn net s).1 = requests s
  ∧ matchers (Conn net s).1 = matchers s.
Proof.
  unfold Conn. destruct (listener s) as [l|] eqn:El.
  2: { simpl. rewrite El. eauto 10. }
  destruct (tlsc s) as [cfg|]; [destruct (cacert s) as [ca|];
    [destruct (AppendCertsFromPEM net ca)|]|];
    cbv zeta; try (destruct (Dial net l) eqn:Ed); simpl; rewrite ?El;
    eauto 10.
Qed.

(** With TLS on, a certificate that loads and one that does not. *)
Example Conn_tls :
  (Conn localNet tlsServer).2 = ConnReturned (Some "127.0.0.1:50051")
  ∧ (Conn badCertNet tlsServer).2 = ConnFatal
  ∧ cc (Conn badCertNet tlsServer).1 = None.
Proof. by repeat split. Qed.

(** ** The handler table *)

Lemma createMethodDescs_acc rt mds methods0 streams0 :
  ∃ methods streams,
    foldl (λ (acc : list MethodDesc * list StreamDesc) md,
             let '(methods, streams) := acc in
             if isUnary md then
               (methods ++ [{| MethodName := Name md;
                               Handler := createUnaryHandler rt md |}],
                streams)
             else
               (methods,
                streams ++ [{| StreamName := Name md;
                               StreamHandler := createStreamHandler rt md;
                               ServerStreams := IsStreamingServer md;
                               ClientStreams := IsStreamingClient md |}]))
          (methods0, streams0) mds
    = (methods0 ++ methods, streams0 ++ streams)
    ∧ Forall2 (λ md d, MethodName d = Name md
                       ∧ Handler d = createUnaryHandler rt md)
        (filter (λ md, isUnary md = true) mds) methods
    ∧ Forall2 (λ md d,
                 StreamName d = Name md
                 ∧ ServerStreams d = IsStreamingServer md
                 ∧ ClientStreams d = IsStreamingClient md
                 ∧ StreamHandler d
                   = if IsStreamingClient md then
                       if IsStreamingServer md
                       then createBiStreamingHandler rt md
                       else createClientStreamingHandler rt md
                     else createServerStreamingHandler rt md)
        (filter (λ md, isUnary md = false) mds) streams.
Proof.
  revert methods0 streams0.
  induction mds as [|md mds IH]; intros methods0 streams0.
  - exists [], []. rewrite !app_nil_r. by repeat split.
  - cbn [foldl]. rewrite !filter_cons. destruct (isUnary md) eqn:E.
    + destruct (IH (methods0 ++ [{| MethodName := Name md;
                                    Handler := createUnaryHandler rt md |}])
                  streams0) as (methods & streams & -> & Hm & Hs).
      eexists (_ :: methods), streams. rewrite <- app_assoc.
      split; [reflexivity|].
      destruct (decide (true = true)); [|done].
      destruct (decide (true = false)); [done|].
      split; [by constructor|done].
    + destruct (IH methods0
                  (streams0 ++ [{| StreamName := Name md;
                                   StreamHandler := createStreamHandler rt md;
                                   ServerStreams := IsStreamingServer md;
                                   ClientStreams := IsStreamingClient md |}]))
        as (methods & streams & -> & Hm & Hs).
      eexists methods, (_ :: streams). rewrite <- app_assoc.
      split; [reflexivity|].
      destruct (decide (false = true)); [done|].
      destruct (decide (false = false)); [|done].
      split; [done|]. constructor; [|done]. simpl. repeat split.
      unfold createStreamHandler, isUnary in *.
      by destruct (IsStreamingClient md), (IsStreamingServer md).
Qed.

(** X22. [createMethodDescs] gives every method one handler, of its own
    shape, and keeps the order of the descriptors: the methods that stream
    in neither direction get the unary handler, in order, under their short
    name; the others become streams, in order, with their two flags and the
    server-streaming, client-streaming or bidirectional handler that the
    flags call for.  The default handler of [createStreamHandler], which
    returns nil and does nothing, is never installed. *)
Theorem createMethodDescs_shapes (rt : Runtime) (mds : list MethodDescriptor) :
  Forall2 (λ md d, MethodName d = Name md
                   ∧ Handler d = createUnaryHandler rt md)
    (filter (λ md, isUnary md = true) mds) (createMethodDescs rt mds).1
  ∧ Forall2 (λ md d,
               StreamName d = Name md
               ∧ ServerStreams d = IsStreamingServer md
               ∧ ClientStreams d = IsStreamingClient md
               ∧ StreamHandler d
                 = if IsStreamingClient md then
                     if IsStreamingServer md
                     then createBiStreamingHandler rt md
                     else createClientStreamingHandler rt md
                   else createServerStreamingHandler rt md)
      (filter (λ md, isUnary md = false) mds) (createMethodDescs rt mds).2.
Proof.
  unfold createMethodDescs.
  destruct (createMethodDescs_acc rt mds [] []) as (ms & ss & -> & Hm & Hs).
  by split.
Qed.

(** The four methods of the route guide: one method, three streams. *)
Example createMethodDescs_routeguide :
  let table := createMethodDescs plainRuntime
                 [getFeature; listFeatures; recordRoute; routeChat] in
  (MethodName <$> table.1) = ["GetFeature"]
  ∧ ((λ d, (StreamName d, ClientStreams d, ServerStreams d)) <$> table.2)
    = [("ListFeatures", false, true); ("RecordRoute", true, false);
       ("RouteChat", true, true)].
Proof. split; reflexivity. Qed.

(** ** The accessor of the schema files *)

Lemma contains_elem_of s e : contains s e = true ↔ e ∈ s.
Proof.
  induction s as [|v s IH]; simpl.
  - split; [done|]. by intros ?%elem_of_nil.
  - rewrite elem_of_cons. destruct (bool_decide_reflect (e = v)); naive_solver.
Qed.

Lemma contains_decide s e : contains s e = bool_decide (e ∈ s).
Proof.
  apply eq_true_iff_eq. by rewrite contains_elem_of, bool_decide_eq_true.
Qed.

Lemma accessAll_spec opened filenames :
  NoDup opened →
  let '(opened', rds) := accessAll opened filenames in
  NoDup opened'
  ∧ (∀ f, f ∈ opened' ↔ f ∈ opened ∨ f ∈ filenames)
  ∧ ∀ i f, filenames !! i = Some f →
           rds !! i = Some (if bool_decide (f ∈ opened ++ take i filenames)
                            then EmptyReader else OsOpen f).
Proof.
  revert opened. induction filenames as [|f0 fs IH]; intros opened Hnd.
  - simpl. split; [done|]. split; [|done].
    intros f. rewrite elem_of_nil. naive_solver.
  - cbn [accessAll]. unfold accessor. rewrite contains_decide.
    destruct (bool_decide_reflect (f0 ∈ opened)) as [Hin|Hnin].
    + specialize (IH opened Hnd).
      destruct (accessAll opened fs) as [opened' rds].
      destruct IH as (Hnd' & Hmem & Hrds). split; [done|]. split.
      * intros f. rewrite Hmem, elem_of_cons.
        split; [naive_solver|]. intros [?|[->|?]]; auto.
      * intros [|i] f Hf; simpl in *.
        -- injection Hf as ->. rewrite app_nil_r.
           by rewrite bool_decide_eq_true_2.
        -- rewrite (Hrds i f Hf). f_equal.
           assert (f ∈ opened ++ take i fs ↔ f ∈ opened ++ f0 :: take i fs) as H.
           { rewrite !elem_of_app, elem_of_cons.
             split; [naive_solver|]. intros [?|[->|?]]; auto. }
           by rewrite (bool_decide_ext _ _ H).
    + assert (NoDup (opened ++ [f0])) as Hnd1.
      { apply NoDup_app. split; [done|]. split; [|apply NoDup_singleton].
        intros x Hx ->%list_elem_of_singleton. done. }
      specialize (IH (opened ++ [f0]) Hnd1).
      destruct (accessAll (opened ++ [f0]) fs) as [opened' rds].
      destruct IH as (Hnd' & Hmem & Hrds). split; [done|]. split.
      * intros f. rewrite Hmem, elem_of_app, !elem_of_cons, elem_of_nil.
        naive_solver.
      * intros [|i] f Hf; simpl in *.
        -- injection Hf as ->. rewrite app_nil_r.
           by rewrite bool_decide_eq_false_2.
        -- rewrite (Hrds i f Hf). by rewrite <- app_assoc.
Qed.

Lemma accessAll_opened opened filenames :
  (accessAll opened filenames).1
  = opened ++ omap (λ rd, match rd with
                          | OsOpen f => Some f
                          | EmptyReader => None
                          end) (accessAll opened filenames).2.
Proof.
  revert opened. induction filenames as [|f0 fs IH]; intros opened.
  - simpl. by rewrite app_nil_r.
  - cbn [accessAll]. unfold accessor.
    destruct (contains opened f0).
    + specialize (IH opened). destruct (accessAll opened fs) as [o rds].
      simpl in *. done.
    + specialize (IH (opened ++ [f0])).
      destruct (accessAll (opened ++ [f0]) fs) as [o rds].
      simpl in *. by rewrite IH, <- app_assoc.
Qed.

(** X23. Over the parser's successive calls the accessor passes a file name
    on to [os.Open] once, the first time it is asked for, and answers every
    later call for that name with the empty reader and no error, whatever
    the first [os.Open] gave: the names opened are the names asked for,
    each once, in the order of their first call. *)
Theorem accessor_opens_once (filenames : list string) :
  NoDup (accessAll [] filenames).1
  ∧ (∀ f, f ∈ (accessAll [] filenames).1 ↔ f ∈ filenames)
  ∧ (accessAll [] filenames).1
    = omap (λ rd, match rd with
                  | OsOpen f => Some f
                  | EmptyReader => None
                  end) (accessAll [] filenames).2
  ∧ ∀ i f, filenames !! i = Some f →
           (accessAll [] filenames).2 !! i
           = Some (if bool_decide (f ∈ take i filenames)
                   then EmptyReader else OsOpen f).
Proof.
  pose proof (accessAll_spec [] filenames (NoDup_nil_2)) as H.
  pose proof (accessAll_opened [] filenames) as Ho.
  destruct (accessAll [] filenames) as [opened rds] eqn:E.
  destruct H as (Hnd & Hmem & Hrds). cbn [fst snd] in *.
  split; [done|]. split; [|split; [done|done]].
  intros f. rewrite Hmem, elem_of_nil. naive_solver.
Qed.

(** A file imported by two others is opened once. *)
Example accessor_twice :
  accessAll [] ["a.proto"; "common.proto"; "b.proto"; "common.proto"]
  = (["a.proto"; "common.proto"; "b.proto"],
     [OsOpen "a.proto"; OsOpen "common.proto"; OsOpen "b.proto"; EmptyReader]).
Proof. reflexivity. Qed.
